(** * fit::optional<T>: a shallow embedding of lib/fit/optional.h

    The header implements an optional over a discriminant [has_value_] and an
    anonymous union holding the [T].  The union is modelled as a storage cell
    that is either raw bytes or a live [T]; the objects of a program live in a
    store indexed by address, because several member functions compare
    [&other] with [this].  Lifetime violations that the C++ abstract machine
    leaves undefined are made observable as faults. *)

From stdpp Require Import base option gmap fin_maps.
From Stdlib Require Import ZArith Bool Lia.

Set Default Proof Using "Type".

(** ** Results of running code *)

Inductive fault : Type :=
  | AssertFailed   (* assert(...) evaluated to false *)
  | DeadAccess     (* a T was read or assigned in storage that holds none *)
  | DoubleDestroy  (* ~T() ran on storage that holds no live T *)
  | Leak           (* a live T was overwritten in place or left behind *)
  | NoSuchObject   (* the caller named an address where no optional lives *)
  | AddressInUse.  (* the caller constructed over an existing optional *)

Inductive result (A : Type) : Type :=
  | Ok (a : A)
  | Fault (f : fault).
Arguments Ok {A} a.
Arguments Fault {A} f.

Definition rbind {A B} (r : result A) (k : A → result B) : result B :=
  match r with
  | Ok a => k a
  | Fault f => Fault f
  end.

Declare Scope fit_scope.
Delimit Scope fit_scope with fit.
Notation "'let?' x := r 'in' k" := (rbind r (fun x => k))
  (at level 10, x name, r at level 100, k at level 200) : fit_scope.
Open Scope fit_scope.

Module fit.

(** The sentinel [fit::nullopt]. *)
Inductive nullopt_t : Type := nullopt.

(** The generic [std::swap] over a type's move constructor and move
    assignment: a temporary is move-constructed from [a], then come two move
    assignments; the temporary is destroyed at the end. *)
Definition std_swap {T} (move_ctor : T → T * T) (move_assign : T → T → T * T)
    (a b : T) : T * T :=
  let '(tmp, a1) := move_ctor a in
  let '(a2, b1) := move_assign a1 b in
  let '(b2, _) := move_assign b1 tmp in
  (a2, b2).

(** What the template asks of the contained type.  A move may change its
    source, so the moving operations also return the source as it is left. *)
Class Contained (T : Type) : Type := {
  copy_ctor : T → T;               (* T(const T&)            : the new object *)
  move_ctor : T → T * T;           (* T(T&&)                 : new object, source after *)
  copy_assign : T → T → T;         (* T& operator=(const T&) : target before, source ↦ target after *)
  move_assign : T → T → T * T;     (* T& operator=(T&&)      : target after, source after *)
  adl_swap : T → T → T * T;        (* swap(a, b) found through [using std::swap] *)
}.

(** Comparison of a [T] with a [U], as the free operators use it. *)
Class Comparable (T U : Type) : Type := {
  op_eq : T → U → bool;            (* t == u *)
  op_ne : T → U → bool;            (* t != u *)
}.

(** ** Data model *)

(** The anonymous union [union { T value_; }]. *)
Inductive storage (T : Type) : Type :=
  | Raw
  | Live (v : T).
Arguments Raw {T}.
Arguments Live {T} v.

Record optional (T : Type) : Type := mk_optional {
  has_value_ : bool;
  value_ : storage T;
}.
Arguments mk_optional {T} _ _.
Arguments has_value_ {T} _.
Arguments value_ {T} _.

Definition is_live {T} (s : storage T) : bool :=
  match s with
  | Live _ => true
  | Raw => false
  end.

Abbreviation addr := nat.

(** The program state: the optionals alive, by address, and how many times
    the container has run a constructor or the destructor of [T] on its
    storage. *)
Record world (T : Type) : Type := mk_world {
  objects : gmap addr (optional T);
  constructed : nat;
  destroyed : nat;
}.
Arguments mk_world {T} _ _ _.
Arguments objects {T} _.
Arguments constructed {T} _.
Arguments destroyed {T} _.

Definition M (T A : Type) : Type := world T → result (A * world T).

Definition ret {T A} (a : A) : M T A := fun w => Ok (a, w).
Definition fail {T A} (f : fault) : M T A := fun _ => Fault f.
Definition bind {T A B} (m : M T A) (k : A → M T B) : M T B :=
  fun w =>
    match m w with
    | Ok (a, w') => k a w'
    | Fault f => Fault f
    end.

Notation "'let*' x := m 'in' k" := (bind m (fun x => k))
  (at level 10, x name, m at level 100, k at level 200) : fit_scope.
Notation "'exec' m 'in' k" := (bind m (fun _ => k))
  (at level 10, m at level 100, k at level 200) : fit_scope.

Section Members.
Context {T : Type} `{Contained T}.

(** *** Access to the members of the object at an address *)

Definition load (a : addr) : M T (optional T) :=
  fun w =>
    match objects w !! a with
    | Some o => Ok (o, w)
    | None => Fault NoSuchObject
    end.

Definition store (a : addr) (o : optional T) : M T unit :=
  fun w => Ok (tt, mk_world (<[a := o]> (objects w)) (constructed w) (destroyed w)).

Definition get_has_value (a : addr) : M T bool :=
  let* o := load a in ret (has_value_ o).

Definition set_has_value (a : addr) (b : bool) : M T unit :=
  let* o := load a in store a (mk_optional b (value_ o)).

(** Reading [value_] as a [T]. *)
Definition read_value (a : addr) : M T T :=
  let* o := load a in
  match value_ o with
  | Live v => ret v
  | Raw => fail DeadAccess
  end.

(** The state of the live [T] in [value_] after one of its own member
    functions changed it. *)
Definition write_value (a : addr) (v : T) : M T unit :=
  let* o := load a in
  match value_ o with
  | Live _ => store a (mk_optional (has_value_ o) (Live v))
  | Raw => fail DeadAccess
  end.

(** [new (&value_) T(...)], the constructor having produced [v]. *)
Definition placement_new (a : addr) (v : T) : M T unit :=
  let* o := load a in
  match value_ o with
  | Raw =>
      fun w =>
        Ok (tt, mk_world (<[a := mk_optional (has_value_ o) (Live v)]> (objects w))
                         (S (constructed w)) (destroyed w))
  | Live _ => fail Leak
  end.

(** [value_.~T()]. *)
Definition destroy_value (a : addr) : M T unit :=
  let* o := load a in
  match value_ o with
  | Live _ =>
      fun w =>
        Ok (tt, mk_world (<[a := mk_optional (has_value_ o) Raw]> (objects w))
                         (constructed w) (S (destroyed w)))
  | Raw => fail DoubleDestroy
  end.

(** [new (&dst.value_) T(src.value_)] *)
Definition construct_copy_of (dst src : addr) : M T unit :=
  let* v := read_value src in
  placement_new dst (copy_ctor v).

(** [new (&dst.value_) T(std::move(src.value_))] *)
Definition construct_move_of (dst src : addr) : M T unit :=
  let* v := read_value src in
  exec placement_new dst (fst (move_ctor v)) in
  write_value src (snd (move_ctor v)).

(** [dst.value_ = src.value_] *)
Definition assign_copy_of (dst src : addr) : M T unit :=
  let* d := read_value dst in
  let* v := read_value src in
  write_value dst (copy_assign d v).

(** [dst.value_ = std::move(src.value_)] *)
Definition assign_move_of (dst src : addr) : M T unit :=
  let* d := read_value dst in
  let* v := read_value src in
  exec write_value dst (fst (move_assign d v)) in
  write_value src (snd (move_assign d v)).

(** The storage of a new optional object at [a], members not yet
    initialised beyond what the initialiser list says. *)
Definition emplace (a : addr) (o : optional T) : M T unit :=
  fun w =>
    match objects w !! a with
    | None => store a o w
    | Some _ => Fault AddressInUse
    end.

(** The end of an optional's lifetime, after its destructor body. *)
Definition release (a : addr) : M T unit :=
  let* o := load a in
  match value_ o with
  | Raw => fun w => Ok (tt, mk_world (delete a (objects w)) (constructed w) (destroyed w))
  | Live _ => fail Leak
  end.

(** [swap(a.value_, b.value_)] *)
Definition swap_values (a b : addr) : M T unit :=
  let* x := read_value a in
  let* y := read_value b in
  exec write_value a (fst (adl_swap x y)) in
  write_value b (snd (adl_swap x y)).

(** *** Constructors and destructor *)

(** [constexpr optional() : has_value_(false) {}] *)
Definition optional_default (this : addr) : M T unit :=
  emplace this (mk_optional false Raw).

(** [explicit constexpr optional(nullopt_t) : has_value_(false) {}] *)
Definition optional_nullopt (this : addr) (_ : nullopt_t) : M T unit :=
  emplace this (mk_optional false Raw).

(** [explicit constexpr optional(T value)
       : has_value_(true), value_(std::move(value)) {}] *)
Definition optional_value (this : addr) (value : T) : M T unit :=
  exec emplace this (mk_optional true Raw) in
  placement_new this (fst (move_ctor value)).

(** [optional(const optional& other)] *)
Definition optional_copy (this other : addr) : M T unit :=
  let* oh := get_has_value other in
  exec emplace this (mk_optional oh Raw) in
  let* h := get_has_value this in
  if h then construct_copy_of this other else ret tt.

(** [optional(optional&& other)] *)
Definition optional_move (this other : addr) : M T unit :=
  let* oh := get_has_value other in
  exec emplace this (mk_optional oh Raw) in
  let* h := get_has_value this in
  if h then
    exec construct_move_of this other in
    exec destroy_value other in
    set_has_value other false
  else ret tt.

(** The body of [~optional()]. *)
Definition optional_dtor (this : addr) : M T unit :=
  let* h := get_has_value this in
  if h then destroy_value this else ret tt.

(** The destruction of an optional object: its destructor, then the end of
    its storage. *)
Definition destroy (this : addr) : M T unit :=
  exec optional_dtor this in
  release this.

(** *** Modifiers *)

Definition reset (this : addr) : M T unit :=
  let* h := get_has_value this in
  if h then
    exec destroy_value this in
    set_has_value this false
  else ret tt.

(** [optional& operator=(const optional& other)]; the result is [*this]. *)
Definition operator_assign_copy (this other : addr) : M T addr :=
  if decide (other = this) then ret this
  else
    let* h := get_has_value this in
    exec (if h then
            let* oh := get_has_value other in
            if oh then assign_copy_of this other else reset this
          else
            let* oh := get_has_value other in
            if oh then
              exec construct_copy_of this other in
              set_has_value this true
            else ret tt) in
    ret this.

(** [optional& operator=(optional&& other)] *)
Definition operator_assign_move (this other : addr) : M T addr :=
  if decide (other = this) then ret this
  else
    let* h := get_has_value this in
    exec (if h then
            let* oh := get_has_value other in
            if oh then
              exec assign_move_of this other in
              exec destroy_value other in
              set_has_value other false
            else reset this
          else
            let* oh := get_has_value other in
            if oh then
              exec construct_move_of this other in
              exec set_has_value this true in
              exec destroy_value other in
              set_has_value other false
            else ret tt) in
    ret this.

(** [optional& operator=(nullopt_t)] *)
Definition operator_assign_nullopt (this : addr) (_ : nullopt_t) : M T addr :=
  exec reset this in
  ret this.

(** [optional& operator=(T value)] *)
Definition operator_assign_value (this : addr) (value : T) : M T addr :=
  let* h := get_has_value this in
  exec (if h then
          let* d := read_value this in
          write_value this (fst (move_assign d value))
        else
          exec placement_new this (fst (move_ctor value)) in
          set_has_value this true) in
  ret this.

(** [void swap(optional& other)] *)
Definition swap (this other : addr) : M T unit :=
  if decide (other = this) then ret tt
  else
    let* h := get_has_value this in
    if h then
      let* oh := get_has_value other in
      if oh then swap_values this other
      else
        exec construct_move_of other this in
        exec set_has_value other true in
        exec destroy_value this in
        set_has_value this false
    else
      let* oh := get_has_value other in
      if oh then
        exec construct_move_of this other in
        exec set_has_value this true in
        exec destroy_value other in
        set_has_value other false
      else ret tt.

(** The free function [template <typename T> void swap(optional<T>& a,
    optional<T>& b)]. *)
Definition free_swap (a b : addr) : M T unit :=
  swap a b.

End Members.

(** *** Observers

    These members are [const] or hand out a reference without touching the
    object, so they are functions of the object's state.  A reference or
    pointer to [value_] is represented by the cell it designates; [read] is
    the use of such a reference as a [T]. *)

Section Observers.
Context {T : Type}.

(** [assert(b)] of <assert.h>, in a build that keeps assertions. *)
Definition assert (b : bool) : result unit :=
  if b then Ok tt else Fault AssertFailed.

Definition read (cell : storage T) : result T :=
  match cell with
  | Live v => Ok v
  | Raw => Fault DeadAccess
  end.

(** [constexpr T& value()] *)
Definition value (this : optional T) : result (storage T) :=
  let? _ := assert (has_value_ this) in
  Ok (value_ this).

(** [constexpr const T& value() const] *)
Definition value_const (this : optional T) : result (storage T) :=
  let? _ := assert (has_value_ this) in
  Ok (value_ this).

(** [constexpr T* operator->() { return &value_; }] *)
Definition operator_arrow (this : optional T) : result (storage T) :=
  Ok (value_ this).

(** [constexpr const T* operator->() const { return &value_; }] *)
Definition operator_arrow_const (this : optional T) : result (storage T) :=
  Ok (value_ this).

(** [constexpr T& operator*() { return value_; }] *)
Definition operator_star (this : optional T) : result (storage T) :=
  Ok (value_ this).

(** [constexpr const T& operator*() const { return value_; }] *)
Definition operator_star_const (this : optional T) : result (storage T) :=
  Ok (value_ this).

Definition has_value (this : optional T) : bool := has_value_ this.

(** [explicit operator bool() const] *)
Definition operator_bool (this : optional T) : bool := has_value this.

End Observers.

(** [static_cast<T>(u)] *)
Class StaticCast (U T : Type) : Type := static_cast : U → T.

(** [template <typename U = T> constexpr T value_or(U&& default_value) const].
    The conditional yields a prvalue [T]: a copy of [value_], or the
    converted default. *)
Definition value_or {T U} `{Contained T} `{StaticCast U T}
    (this : addr) (default_value : U) : M T T :=
  let* h := get_has_value this in
  if h then
    let* v := read_value this in
    ret (copy_ctor v)
  else ret (static_cast default_value).

(** *** The free comparison operators

    [a && b] and [a || b] evaluate [b] only when [a] does not decide the
    result, so a fault in [b] is lost in that case. *)

Definition sc_and (a : bool) (b : result bool) : result bool :=
  if a then b else Ok false.

Definition sc_or (a : bool) (b : result bool) : result bool :=
  if a then Ok true else b.

Section Comparisons.
Context {T U : Type} `{Comparable T U}.

(** [operator==(const optional<T>& lhs, nullopt_t)] *)
Definition operator_eq_opt_nullopt (lhs : optional T) (_ : nullopt_t) : result bool :=
  Ok (negb (has_value lhs)).

(** [operator!=(const optional<T>& lhs, nullopt_t)] *)
Definition operator_ne_opt_nullopt (lhs : optional T) (_ : nullopt_t) : result bool :=
  Ok (has_value lhs).

(** [operator==(nullopt_t, const optional<T>& rhs)] *)
Definition operator_eq_nullopt_opt (_ : nullopt_t) (rhs : optional T) : result bool :=
  Ok (negb (has_value rhs)).

(** [operator!=(nullopt_t, const optional<T>& rhs)] *)
Definition operator_ne_nullopt_opt (_ : nullopt_t) (rhs : optional T) : result bool :=
  Ok (has_value rhs).

(** [operator==(const optional<T>& lhs, const optional<U>& rhs)] *)
Definition operator_eq_opt_opt (lhs : optional T) (rhs : optional U) : result bool :=
  sc_and (eqb (has_value lhs) (has_value rhs))
    (sc_or (negb (has_value lhs))
       (let? l := operator_star_const lhs in
        let? x := read l in
        let? r := operator_star_const rhs in
        let? y := read r in
        Ok (op_eq x y))).

(** [operator!=(const optional<T>& lhs, const optional<U>& rhs)] *)
Definition operator_ne_opt_opt (lhs : optional T) (rhs : optional U) : result bool :=
  sc_or (negb (eqb (has_value lhs) (has_value rhs)))
    (sc_and (has_value lhs)
       (let? l := operator_star_const lhs in
        let? x := read l in
        let? r := operator_star_const rhs in
        let? y := read r in
        Ok (op_ne x y))).

(** [operator==(const optional<T>& lhs, const U& rhs)] *)
Definition operator_eq_opt_val (lhs : optional T) (rhs : U) : result bool :=
  sc_and (has_value lhs)
    (let? l := operator_star_const lhs in
     let? x := read l in
     Ok (op_eq x rhs)).

(** [operator!=(const optional<T>& lhs, const U& rhs)] *)
Definition operator_ne_opt_val (lhs : optional T) (rhs : U) : result bool :=
  sc_or (negb (has_value lhs))
    (let? l := operator_star_const lhs in
     let? x := read l in
     Ok (op_ne x rhs)).

(** [operator==(const T& lhs, const optional<U>& rhs)] *)
Definition operator_eq_val_opt (lhs : T) (rhs : optional U) : result bool :=
  sc_and (has_value rhs)
    (let? r := operator_star_const rhs in
     let? y := read r in
     Ok (op_eq lhs y)).

(** [operator!=(const T& lhs, const optional<U>& rhs)] *)
Definition operator_ne_val_opt (lhs : T) (rhs : optional U) : result bool :=
  sc_or (negb (has_value rhs))
    (let? r := operator_star_const rhs in
     let? y := read r in
     Ok (op_ne lhs y)).

End Comparisons.

End fit.

(** ** The instrumented type of the test suite *)

Module optional_tests.
Import fit.

(** [struct slot { int value; ... }].  Each of its constructors adds one to
    the static [balance] and its destructor takes one away; for the slots an
    optional keeps in its storage that is [constructed w - destroyed w].
    The [int] is only copied and compared here, never computed with. *)
Record slot : Type := mk_slot { value : Z }.

Definition get (s : slot) : Z := value s.

(** [slot(const slot& other) : value(other.value)] *)
Definition slot_copy_ctor (other : slot) : slot := mk_slot (value other).

(** [slot(slot&& other) : value(other.value)]; the source keeps its value. *)
Definition slot_move_ctor (other : slot) : slot * slot :=
  (mk_slot (value other), other).

(** [slot& operator=(const slot& other) = default] *)
Definition slot_copy_assign (this other : slot) : slot := mk_slot (value other).

(** [slot& operator=(slot&& other) = default] *)
Definition slot_move_assign (this other : slot) : slot * slot :=
  (mk_slot (value other), other).

#[global] Instance slot_contained : Contained slot := {
  copy_ctor := slot_copy_ctor;
  move_ctor := slot_move_ctor;
  copy_assign := slot_copy_assign;
  move_assign := slot_move_assign;
  adl_swap := std_swap slot_move_ctor slot_move_assign;
}.

(** [bool operator==(const slot&) const], [bool operator!=(const slot&) const] *)
#[global] Instance slot_comparable : Comparable slot slot := {
  op_eq a other := (value a =? value other)%Z;
  op_ne a other := negb (value a =? value other)%Z;
}.

(** [static_cast<slot>(std::forward<slot>(default_value))] move-constructs. *)
#[global] Instance slot_static_cast : StaticCast slot slot :=
  fun default_value => fst (move_ctor default_value).

End optional_tests.

Import fit.

(** ** The two states of an optional, and the class invariant *)

Section States.
Context {T : Type}.

Definition absent : optional T := mk_optional false Raw.
Definition present (v : T) : optional T := mk_optional true (Live v).

(** The storage holds a constructed, live [T]. *)
Definition holds_live (o : optional T) : Prop := ∃ v, value_ o = Live v.

(** The class invariant: the storage is live exactly when the flag is set. *)
Definition optional_inv (o : optional T) : Prop :=
  is_live (value_ o) = has_value o.

Definition world_inv (w : world T) : Prop :=
  ∀ a o, objects w !! a = Some o → optional_inv o.

Definition live_nat (o : optional T) : nat :=
  if is_live (value_ o) then 1 else 0.

(** How many of the optionals of a store hold a live [T]. *)
Definition live_count (m : gmap addr (optional T)) : nat :=
  map_fold (fun _ o n => if is_live (value_ o) then S n else n) 0 m.

(** Every [T] the container constructed and has not destroyed is the live
    content of some optional. *)
Definition balanced (w : world T) : Prop :=
  constructed w = destroyed w + live_count (objects w).

Definition empty_world : world T := mk_world ∅ 0 0.

(** A fault that is the caller's: it used an address with no optional at
    it, or constructed one where an optional already lives. *)
Definition caller_fault (f : fault) : Prop :=
  f = NoSuchObject ∨ f = AddressInUse.

End States.

(** ** Programs over the public operations *)

Inductive op (T : Type) : Type :=
  | Construct (this : addr)
  | ConstructNullopt (this : addr)
  | ConstructValue (this : addr) (v : T)
  | ConstructCopy (this other : addr)
  | ConstructMove (this other : addr)
  | AssignCopy (this other : addr)
  | AssignMove (this other : addr)
  | AssignValue (this : addr) (v : T)
  | AssignNullopt (this : addr)
  | Reset (this : addr)
  | Swap (this other : addr)
  | FreeSwap (a b : addr)
  | Destroy (this : addr).
Arguments Construct {T} this.
Arguments ConstructNullopt {T} this.
Arguments ConstructValue {T} this v.
Arguments ConstructCopy {T} this other.
Arguments ConstructMove {T} this other.
Arguments AssignCopy {T} this other.
Arguments AssignMove {T} this other.
Arguments AssignValue {T} this v.
Arguments AssignNullopt {T} this.
Arguments Reset {T} this.
Arguments Swap {T} this other.
Arguments FreeSwap {T} a b.
Arguments Destroy {T} this.

Section Programs.
Context {T : Type} `{Contained T}.

Definition run_op (o : op T) : M T unit :=
  match o with
  | Construct this => optional_default this
  | ConstructNullopt this => optional_nullopt this nullopt
  | ConstructValue this v => optional_value this v
  | ConstructCopy this other => optional_copy this other
  | ConstructMove this other => optional_move this other
  | AssignCopy this other => exec operator_assign_copy this other in ret tt
  | AssignMove this other => exec operator_assign_move this other in ret tt
  | AssignValue this v => exec operator_assign_value this v in ret tt
  | AssignNullopt this => exec operator_assign_nullopt this nullopt in ret tt
  | Reset this => reset this
  | Swap this other => swap this other
  | FreeSwap a b => free_swap a b
  | Destroy this => destroy this
  end.

Fixpoint run (p : list (op T)) : M T unit :=
  match p with
  | [] => ret tt
  | o :: p' => exec run_op o in run p'
  end.

End Programs.

(** ** The objects of the test suite

    [fit::optional<slot> a({42}); fit::optional<slot> b({55});
     fit::optional<slot> c;] at the addresses 1, 2 and 3. *)

Module scenario.
Import optional_tests.

Definition a : addr := 1.
Definition b : addr := 2.
Definition c : addr := 3.
Definition d : addr := 4.

Definition declarations : list (op slot) :=
  [ConstructValue a (mk_slot 42); ConstructValue b (mk_slot 55); Construct c].

Definition abc : world slot :=
  mk_world (<[c := absent]>
              (<[b := present (mk_slot 55)]>
                 (<[a := present (mk_slot 42)]> ∅))) 2 0.

(** The whole of the test [swapping], objects destroyed at the end of the
    scope in reverse order of declaration. *)
Definition swapping : list (op slot) :=
  [ConstructValue a (mk_slot 42); ConstructValue b (mk_slot 55);
   Construct c; Construct d;
   FreeSwap a b; FreeSwap a c; FreeSwap d c; FreeSwap c a;
   FreeSwap a a; FreeSwap d d;
   Destroy d; Destroy c; Destroy b; Destroy a].

(** The test [assign_move], up to the end of its scope. *)
Definition assign_move : list (op slot) :=
  [ConstructValue a (mk_slot 42); ConstructValue b (mk_slot 55); Construct c;
   AssignMove a b; AssignMove b c; AssignMove c b; AssignMove b a;
   AssignMove b b; AssignMove a a].

(** The test [assign_copy], up to the end of its scope. *)
Definition assign_copy : list (op slot) :=
  [ConstructValue a (mk_slot 42); ConstructValue b (mk_slot 55); Construct c;
   AssignCopy a b; AssignCopy b c; AssignCopy b a;
   AssignCopy b b; AssignCopy c c].

(** The test [assign]. *)
Definition assign : list (op slot) :=
  [ConstructValue a (mk_slot 42); AssignValue a (mk_slot 99); Reset a;
   AssignValue a (mk_slot 55); AssignNullopt a; Destroy a].

End scenario.

Section Readiness.
Context {T : Type}.

(** The addresses an operation names are what it needs: free for an object
    under construction, occupied for every object it uses. *)
Definition op_ready (w : world T) (o : op T) : Prop :=
  match o with
  | Construct this | ConstructNullopt this | ConstructValue this _ =>
      objects w !! this = None
  | ConstructCopy this other | ConstructMove this other =>
      objects w !! this = None ∧ is_Some (objects w !! other)
  | AssignCopy this other | AssignMove this other
  | Swap this other | FreeSwap this other =>
      is_Some (objects w !! this) ∧ is_Some (objects w !! other)
  | AssignValue this _ | AssignNullopt this | Reset this | Destroy this =>
      is_Some (objects w !! this)
  end.

(** What a call leaves behind, without what it returns. *)
Definition effect {A} (r : result (A * world T)) : result (world T) :=
  match r with
  | Ok (_, w) => Ok w
  | Fault f => Fault f
  end.

(** The specification's words for the empty constructions: "produces an
    empty Optional.  No T is constructed." *)
Definition construct_empty_spec (this : addr) (w : world T) : result (world T) :=
  match objects w !! this with
  | None => Ok (mk_world (<[this := absent]> (objects w)) (constructed w) (destroyed w))
  | Some _ => Fault AddressInUse
  end.

(** The specification's words for [reset]: "if present, destroy the value
    and become empty; otherwise no-op." *)
Definition reset_spec (this : addr) (w : world T) : result (world T) :=
  match objects w !! this with
  | None => Fault NoSuchObject
  | Some o =>
      if has_value o
      then Ok (mk_world (<[this := absent]> (objects w)) (constructed w) (S (destroyed w)))
      else Ok w
  end.

End Readiness.

Definition rmap {A B} (f : A → B) (r : result A) : result B :=
  match r with
  | Ok a => Ok (f a)
  | Fault e => Fault e
  end.

Definition is_ok {A} (r : result A) : Prop :=
  match r with
  | Ok _ => True
  | Fault _ => False
  end.

(** ** Contained types with unusual comparison operators

    [struct { bool operator==(const X&) const { return true; }
              bool operator!=(const X&) const { return true; } }]:
    a type whose [!=] is not the negation of its [==]. *)
Definition yes_to_both : Comparable unit unit :=
  {| op_eq _ _ := true; op_ne _ _ := true |}.

(** A [bool]-like type whose [a == b] is [a && !b] and whose [!=] negates
    it: its [==] depends on the order of the operands. *)
Definition one_sided : Comparable bool bool :=
  {| op_eq x y := x && negb y; op_ne x y := negb (x && negb y) |}.

(** ** Further notions used beyond the claims *)

(** A contained type whose copies and moves carry the value over and whose
    [swap] exchanges, as those of [slot] do. *)
Class ValueLike (T : Type) `{Contained T} : Prop := {
  copy_ctor_value : ∀ v : T, copy_ctor v = v;
  move_ctor_value : ∀ v : T, fst (move_ctor v) = v;
  copy_assign_value : ∀ x y : T, copy_assign x y = y;
  move_assign_value : ∀ x y : T, fst (move_assign x y) = y;
  adl_swap_value : ∀ x y : T, adl_swap x y = (y, x);
}.

(** The addresses an operation names. *)
Definition op_names {T} (o : op T) : list addr :=
  match o with
  | Construct this | ConstructNullopt this | ConstructValue this _
  | AssignValue this _ | AssignNullopt this | Reset this | Destroy this =>
      [this]
  | ConstructCopy this other | ConstructMove this other
  | AssignCopy this other | AssignMove this other
  | Swap this other | FreeSwap this other =>
      [this; other]
  end.

(** What is at address [a] is [x], an optional or nothing. *)
Definition holds_at {T} (a : addr) (x : option (optional T)) (w : world T) : Prop :=
  objects w !! a = x.

(** A monadic computation keeps a property of the world whenever it
    returns. *)
Definition preserves {T A} (P : world T → Prop) (m : M T A) : Prop :=
  ∀ w, P w → match m w with Ok (_, w') => P w' | Fault _ => True end.

(** ** Proof support *)

Ltac unfold_bodies :=
  unfold free_swap, swap, operator_assign_copy, operator_assign_move,
    operator_assign_nullopt, operator_assign_value, value_or, destroy,
    optional_dtor, optional_default, optional_nullopt, optional_value,
    optional_copy, optional_move, reset, swap_values, construct_copy_of,
    construct_move_of, assign_copy_of, assign_move_of.

Ltac unfold_members :=
  unfold_bodies;
  unfold get_has_value, set_has_value, destroy_value, placement_new,
    write_value, read_value, emplace, release, store, load, bind, ret, fail.

Ltac lookup_step :=
  first
    [ rewrite lookup_insert_eq
    | rewrite lookup_insert_ne by congruence
    | match goal with
      | Hl : objects ?w !! ?a = _ |- context [objects ?w !! ?a] => rewrite Hl
      end ].

(** Runs a member function on a store whose relevant lookups are known. *)
Ltac evaluate :=
  unfold_members; simpl;
  repeat (first [ rewrite decide_True by congruence
                | rewrite decide_False by congruence
                | lookup_step ]; simpl).

Ltac same_map :=
  apply map_eq; intros ?k;
  repeat (rewrite lookup_insert; case_decide; simplify_eq; try done).

Ltac same_world := f_equal; f_equal; f_equal; same_map.

(** ** The invariant on single objects *)

Section StateFacts.
Context {T : Type}.
Implicit Types (o : optional T) (v : T).

Lemma holds_live_is_live o : holds_live o ↔ is_live (value_ o) = true.
Proof.
  unfold holds_live. destruct (value_ o) as [|v]; simpl.
  - split; [intros [v Hv]; discriminate | discriminate].
  - split; [reflexivity | intros _; exists v; reflexivity].
Qed.

Lemma optional_inv_iff o :
  optional_inv o ↔ (holds_live o ↔ has_value o = true).
Proof.
  rewrite holds_live_is_live. unfold optional_inv.
  destruct (is_live (value_ o)), (has_value o); intuition congruence.
Qed.

Lemma absent_inv : optional_inv (@absent T).
Proof. reflexivity. Qed.

Lemma present_inv v : optional_inv (present v).
Proof. reflexivity. Qed.

Lemma optional_inv_cases o :
  optional_inv o ↔ o = absent ∨ ∃ v, o = present v.
Proof.
  split.
  - unfold optional_inv, has_value. destruct o as [[] [|v]]; simpl; intros Hinv;
      try discriminate Hinv; [right; exists v | left]; reflexivity.
  - intros [-> | [v ->]]; reflexivity.
Qed.

End StateFacts.

(** Splits on whether an optional lives at [a] and, by the invariant, on
    which of its two states it is in. *)
Ltac classify Hinv w a :=
  let o := fresh "o" in
  let E := fresh "E" in
  destruct (objects w !! a) as [o|] eqn:E;
  [ let Hi := fresh "Hi" in
    pose proof (Hinv _ _ E) as Hi; apply optional_inv_cases in Hi;
    destruct Hi as [-> | [? ->]]
  | ].

Ltac inv_after :=
  first
    [ assumption
    | by (left + right)
    | let k := fresh "k" in
      let ok := fresh "ok" in
      let Hk := fresh "Hk" in
      intros k ok Hk; simpl in Hk;
      repeat (first [rewrite lookup_insert in Hk | rewrite lookup_delete in Hk];
              case_decide; simplify_eq);
      eauto using absent_inv, present_inv ].

(** ** What each member function does, case by case *)

Section MemberFacts.
Context {T : Type} `{Contained T}.
Implicit Types (w : world T) (this other : addr) (v : T).

Lemma optional_default_fresh w this :
  objects w !! this = None →
  optional_default this w =
    Ok (tt, mk_world (<[this := absent]> (objects w)) (constructed w) (destroyed w)).
Proof. intros Hthis. evaluate. reflexivity. Qed.

Lemma optional_nullopt_fresh w this :
  objects w !! this = None →
  optional_nullopt this nullopt w =
    Ok (tt, mk_world (<[this := absent]> (objects w)) (constructed w) (destroyed w)).
Proof. intros Hthis. evaluate. reflexivity. Qed.

Lemma optional_value_fresh w this v :
  objects w !! this = None →
  optional_value this v w =
    Ok (tt, mk_world (<[this := present (fst (move_ctor v))]> (objects w))
                     (S (constructed w)) (destroyed w)).
Proof. intros Hthis. evaluate. same_world. Qed.

Lemma optional_copy_present w this other v :
  objects w !! this = None →
  objects w !! other = Some (present v) →
  optional_copy this other w =
    Ok (tt, mk_world (<[this := present (copy_ctor v)]> (objects w))
                     (S (constructed w)) (destroyed w)).
Proof.
  intros Hthis Hother. assert (this ≠ other) by congruence.
  evaluate. same_world.
Qed.

Lemma optional_copy_absent w this other :
  objects w !! this = None →
  objects w !! other = Some absent →
  optional_copy this other w =
    Ok (tt, mk_world (<[this := absent]> (objects w)) (constructed w) (destroyed w)).
Proof.
  intros Hthis Hother. assert (this ≠ other) by congruence.
  evaluate. reflexivity.
Qed.

Lemma optional_move_present w this other v :
  objects w !! this = None →
  objects w !! other = Some (present v) →
  optional_move this other w =
    Ok (tt, mk_world (<[other := absent]>
                        (<[this := present (fst (move_ctor v))]> (objects w)))
                     (S (constructed w)) (S (destroyed w))).
Proof.
  intros Hthis Hother. assert (this ≠ other) by congruence.
  evaluate. same_world.
Qed.

Lemma optional_move_absent w this other :
  objects w !! this = None →
  objects w !! other = Some absent →
  optional_move this other w =
    Ok (tt, mk_world (<[this := absent]> (objects w)) (constructed w) (destroyed w)).
Proof.
  intros Hthis Hother. assert (this ≠ other) by congruence.
  evaluate. reflexivity.
Qed.

Lemma destroy_present w this v :
  objects w !! this = Some (present v) →
  destroy this w =
    Ok (tt, mk_world (delete this (objects w)) (constructed w) (S (destroyed w))).
Proof. intros Hthis. evaluate. by rewrite delete_insert_eq. Qed.

Lemma destroy_absent w this :
  objects w !! this = Some absent →
  destroy this w =
    Ok (tt, mk_world (delete this (objects w)) (constructed w) (destroyed w)).
Proof. intros Hthis. evaluate. reflexivity. Qed.

Lemma reset_present w this v :
  objects w !! this = Some (present v) →
  reset this w =
    Ok (tt, mk_world (<[this := absent]> (objects w)) (constructed w) (S (destroyed w))).
Proof. intros Hthis. evaluate. same_world. Qed.

Lemma reset_absent w this :
  objects w !! this = Some absent →
  reset this w = Ok (tt, w).
Proof. intros Hthis. evaluate. reflexivity. Qed.

End MemberFacts.

Section AssignFacts.
Context {T : Type} `{Contained T}.
Implicit Types (w : world T) (this other : addr) (v x y : T).

Lemma assign_copy_self w this :
  operator_assign_copy this this w = Ok (this, w).
Proof. unfold operator_assign_copy. by rewrite decide_True. Qed.

Lemma assign_copy_both w this other x y :
  this ≠ other →
  objects w !! this = Some (present x) →
  objects w !! other = Some (present y) →
  operator_assign_copy this other w =
    Ok (this, mk_world (<[this := present (copy_assign x y)]> (objects w))
                       (constructed w) (destroyed w)).
Proof. intros Hne Hthis Hother. evaluate. reflexivity. Qed.

Lemma assign_copy_from_absent w this other x :
  this ≠ other →
  objects w !! this = Some (present x) →
  objects w !! other = Some absent →
  operator_assign_copy this other w =
    Ok (this, mk_world (<[this := absent]> (objects w))
                       (constructed w) (S (destroyed w))).
Proof. intros Hne Hthis Hother. evaluate. same_world. Qed.

Lemma assign_copy_into_absent w this other y :
  this ≠ other →
  objects w !! this = Some absent →
  objects w !! other = Some (present y) →
  operator_assign_copy this other w =
    Ok (this, mk_world (<[this := present (copy_ctor y)]> (objects w))
                       (S (constructed w)) (destroyed w)).
Proof. intros Hne Hthis Hother. evaluate. same_world. Qed.

Lemma assign_copy_neither w this other :
  this ≠ other →
  objects w !! this = Some absent →
  objects w !! other = Some absent →
  operator_assign_copy this other w = Ok (this, w).
Proof. intros Hne Hthis Hother. evaluate. reflexivity. Qed.

Lemma assign_move_self w this :
  operator_assign_move this this w = Ok (this, w).
Proof. unfold operator_assign_move. by rewrite decide_True. Qed.

Lemma assign_move_both w this other x y :
  this ≠ other →
  objects w !! this = Some (present x) →
  objects w !! other = Some (present y) →
  operator_assign_move this other w =
    Ok (this, mk_world (<[other := absent]>
                          (<[this := present (fst (move_assign x y))]> (objects w)))
                       (constructed w) (S (destroyed w))).
Proof. intros Hne Hthis Hother. evaluate. same_world. Qed.

Lemma assign_move_from_absent w this other x :
  this ≠ other →
  objects w !! this = Some (present x) →
  objects w !! other = Some absent →
  operator_assign_move this other w =
    Ok (this, mk_world (<[this := absent]> (objects w))
                       (constructed w) (S (destroyed w))).
Proof. intros Hne Hthis Hother. evaluate. same_world. Qed.

Lemma assign_move_into_absent w this other y :
  this ≠ other →
  objects w !! this = Some absent →
  objects w !! other = Some (present y) →
  operator_assign_move this other w =
    Ok (this, mk_world (<[other := absent]>
                          (<[this := present (fst (move_ctor y))]> (objects w)))
                       (S (constructed w)) (S (destroyed w))).
Proof. intros Hne Hthis Hother. evaluate. same_world. Qed.

Lemma assign_move_neither w this other :
  this ≠ other →
  objects w !! this = Some absent →
  objects w !! other = Some absent →
  operator_assign_move this other w = Ok (this, w).
Proof. intros Hne Hthis Hother. evaluate. reflexivity. Qed.

Lemma assign_nullopt_is_reset w this :
  operator_assign_nullopt this nullopt w =
    match reset this w with
    | Ok (_, w') => Ok (this, w')
    | Fault f => Fault f
    end.
Proof. unfold operator_assign_nullopt, bind, ret. by destruct (reset this w) as [[[] ?]|]. Qed.

Lemma assign_value_present w this x v :
  objects w !! this = Some (present x) →
  operator_assign_value this v w =
    Ok (this, mk_world (<[this := present (fst (move_assign x v))]> (objects w))
                       (constructed w) (destroyed w)).
Proof. intros Hthis. evaluate. reflexivity. Qed.

Lemma assign_value_absent w this v :
  objects w !! this = Some absent →
  operator_assign_value this v w =
    Ok (this, mk_world (<[this := present (fst (move_ctor v))]> (objects w))
                       (S (constructed w)) (destroyed w)).
Proof. intros Hthis. evaluate. same_world. Qed.

Lemma swap_self w this : swap this this w = Ok (tt, w).
Proof. unfold swap. by rewrite decide_True. Qed.

Lemma swap_both w this other x y :
  this ≠ other →
  objects w !! this = Some (present x) →
  objects w !! other = Some (present y) →
  swap this other w =
    Ok (tt, mk_world (<[other := present (snd (adl_swap x y))]>
                        (<[this := present (fst (adl_swap x y))]> (objects w)))
                     (constructed w) (destroyed w)).
Proof. intros Hne Hthis Hother. evaluate. reflexivity. Qed.

Lemma swap_into_other w this other x :
  this ≠ other →
  objects w !! this = Some (present x) →
  objects w !! other = Some absent →
  swap this other w =
    Ok (tt, mk_world (<[this := absent]>
                        (<[other := present (fst (move_ctor x))]> (objects w)))
                     (S (constructed w)) (S (destroyed w))).
Proof. intros Hne Hthis Hother. evaluate. same_world. Qed.

Lemma swap_into_this w this other y :
  this ≠ other →
  objects w !! this = Some absent →
  objects w !! other = Some (present y) →
  swap this other w =
    Ok (tt, mk_world (<[other := absent]>
                        (<[this := present (fst (move_ctor y))]> (objects w)))
                     (S (constructed w)) (S (destroyed w))).
Proof. intros Hne Hthis Hother. evaluate. same_world. Qed.

Lemma swap_neither w this other :
  this ≠ other →
  objects w !! this = Some absent →
  objects w !! other = Some absent →
  swap this other w = Ok (tt, w).
Proof. intros Hne Hthis Hother. evaluate. reflexivity. Qed.

End AssignFacts.

(** ** Counting the live values of a store *)

Section LiveCount.
Context {T : Type}.
Implicit Types (m : gmap addr (optional T)) (o : optional T).

Lemma live_count_empty : live_count (∅ : gmap addr (optional T)) = 0.
Proof. apply map_fold_empty. Qed.

Lemma live_count_insert_fresh m a o :
  m !! a = None →
  live_count (<[a := o]> m) = live_nat o + live_count m.
Proof.
  intros Hfresh. unfold live_count.
  rewrite map_fold_insert_L; [| | exact Hfresh].
  - unfold live_nat. by destruct (is_live (value_ o)).
  - intros j1 j2 z1 z2 y _ _ _.
    by destruct (is_live (value_ z1)), (is_live (value_ z2)).
Qed.

Lemma live_count_lookup m a o :
  m !! a = Some o →
  live_count m = live_nat o + live_count (delete a m).
Proof.
  intros Hat. rewrite <- (insert_delete_id m a o Hat) at 1.
  apply live_count_insert_fresh, lookup_delete_eq.
Qed.

Lemma live_count_insert m a o o' :
  m !! a = Some o →
  live_count (<[a := o']> m) + live_nat o = live_count m + live_nat o'.
Proof.
  intros Hat. rewrite (live_count_lookup m a o Hat).
  rewrite <- insert_delete_eq.
  rewrite live_count_insert_fresh by apply lookup_delete_eq. lia.
Qed.

End LiveCount.

(** ** The balance of constructions and destructions

    Each step a member function is made of keeps [balanced], hence so does
    every member function, whatever path it takes. *)

Create HintDb balance.

Section Preservation.
Context {T : Type}.
Implicit Types (P : world T → Prop) (a : addr).

Lemma preserves_ret {A} P (x : A) : preserves P (ret x).
Proof. intros w Hw. exact Hw. Qed.

Lemma preserves_fail {A} P f : preserves P (@fail T A f).
Proof. intros w Hw. exact I. Qed.

Lemma preserves_bind {A B} P (m : M T A) (k : A → M T B) :
  preserves P m → (∀ x, preserves P (k x)) → preserves P (bind m k).
Proof.
  intros Hm Hk w Hw. unfold bind. specialize (Hm w Hw).
  destruct (m w) as [[x w']|f]; [apply Hk, Hm | exact I].
Qed.

Lemma preserves_if {A} P (b : bool) (m1 m2 : M T A) :
  preserves P m1 → preserves P m2 → preserves P (if b then m1 else m2).
Proof. by destruct b. Qed.

Lemma preserves_if_dec {A} P {Q : Prop} (d : Decision Q) (m1 m2 : M T A) :
  preserves P m1 → preserves P m2 → preserves P (if d then m1 else m2).
Proof. by destruct d. Qed.

Lemma preserves_load P a : preserves P (load a).
Proof. intros w Hw. unfold load. by destruct (objects w !! a). Qed.

Lemma balanced_update (w : world T) a o o' c d :
  objects w !! a = Some o →
  balanced w →
  c + live_nat o + destroyed w = constructed w + live_nat o' + d →
  balanced (mk_world (<[a := o']> (objects w)) c d).
Proof.
  unfold balanced. simpl. intros Hat Hbal Hcount.
  pose proof (live_count_insert (objects w) a o o' Hat). lia.
Qed.

Lemma balanced_get_has_value a : preserves (@balanced T) (get_has_value a).
Proof. unfold get_has_value. auto using preserves_bind, preserves_ret, preserves_load. Qed.

Lemma balanced_read_value a : preserves (@balanced T) (read_value a).
Proof.
  unfold read_value. apply preserves_bind; [apply preserves_load |].
  intros o. destruct (value_ o); [apply preserves_fail | apply preserves_ret].
Qed.

Lemma balanced_set_has_value a b : preserves (@balanced T) (set_has_value a b).
Proof.
  intros w Hw. unfold set_has_value, bind, load, store.
  destruct (objects w !! a) as [o|] eqn:Hat; [| exact I].
  apply (balanced_update w a o); [exact Hat | exact Hw |].
  unfold live_nat. simpl. lia.
Qed.

Lemma balanced_write_value a v : preserves (@balanced T) (write_value a v).
Proof.
  intros w Hw. unfold write_value, bind, load, store, fail.
  destruct (objects w !! a) as [o|] eqn:Hat; [| exact I].
  destruct (value_ o) as [|x] eqn:Hcell; [exact I |].
  apply (balanced_update w a o); [exact Hat | exact Hw |].
  unfold live_nat. rewrite Hcell. simpl. lia.
Qed.

Lemma balanced_placement_new a v : preserves (@balanced T) (placement_new a v).
Proof.
  intros w Hw. unfold placement_new, bind, load, fail.
  destruct (objects w !! a) as [o|] eqn:Hat; [| exact I].
  destruct (value_ o) as [|x] eqn:Hcell; [| exact I].
  apply (balanced_update w a o); [exact Hat | exact Hw |].
  unfold live_nat. rewrite Hcell. simpl. lia.
Qed.

Lemma balanced_destroy_value a : preserves (@balanced T) (destroy_value a).
Proof.
  intros w Hw. unfold destroy_value, bind, load, fail.
  destruct (objects w !! a) as [o|] eqn:Hat; [| exact I].
  destruct (value_ o) as [|x] eqn:Hcell; [exact I |].
  apply (balanced_update w a o); [exact Hat | exact Hw |].
  unfold live_nat. rewrite Hcell. simpl. lia.
Qed.

Lemma balanced_emplace a h : preserves (@balanced T) (emplace a (mk_optional h Raw)).
Proof.
  intros w Hw. unfold emplace, store.
  destruct (objects w !! a) as [o|] eqn:Hat; [exact I |].
  unfold balanced in *. simpl.
  rewrite live_count_insert_fresh by exact Hat. exact Hw.
Qed.

Lemma balanced_release a : preserves (@balanced T) (release a).
Proof.
  intros w Hw. unfold release, bind, load, fail.
  destruct (objects w !! a) as [o|] eqn:Hat; [| exact I].
  destruct (value_ o) as [|x] eqn:Hcell; [| exact I].
  unfold balanced in *. simpl.
  rewrite (live_count_lookup _ a o Hat) in Hw.
  unfold live_nat in Hw. rewrite Hcell in Hw. exact Hw.
Qed.

End Preservation.

#[export] Hint Resolve preserves_ret preserves_fail preserves_bind preserves_if
  preserves_if_dec preserves_load balanced_get_has_value balanced_read_value
  balanced_set_has_value balanced_write_value balanced_placement_new
  balanced_destroy_value balanced_emplace balanced_release : balance.

Section MembersBalanced.
Context {T : Type} `{Contained T}.

Lemma run_op_balanced (o : op T) : preserves balanced (run_op o).
Proof.
  destruct o; simpl; unfold_bodies; auto 30 with balance.
Qed.

End MembersBalanced.

(** ** Every operation keeps the invariant *)

Section InvariantKept.
Context {T : Type} `{Contained T}.

Lemma run_op_inv (o : op T) (w : world T) :
  world_inv w →
  match run_op o w with
  | Ok (_, w') => world_inv w'
  | Fault f => caller_fault f
  end.
Proof.
  intros Hinv.
  destruct o as [this|this|this v|this other|this other|this other|this other
                 |this v|this|this|this other|this other|this]; simpl.
  - classify Hinv w this; evaluate; inv_after.
  - classify Hinv w this; evaluate; inv_after.
  - classify Hinv w this; evaluate; inv_after.
  - classify Hinv w this; classify Hinv w other; evaluate; inv_after.
  - classify Hinv w this; classify Hinv w other; evaluate; inv_after.
  - destruct (decide (other = this)) as [->|Hne].
    + evaluate. inv_after.
    + classify Hinv w this; classify Hinv w other; evaluate; inv_after.
  - destruct (decide (other = this)) as [->|Hne].
    + evaluate. inv_after.
    + classify Hinv w this; classify Hinv w other; evaluate; inv_after.
  - classify Hinv w this; evaluate; inv_after.
  - classify Hinv w this; evaluate; inv_after.
  - classify Hinv w this; evaluate; inv_after.
  - destruct (decide (other = this)) as [->|Hne].
    + evaluate. inv_after.
    + classify Hinv w this; classify Hinv w other; evaluate; inv_after.
  - destruct (decide (other = this)) as [->|Hne].
    + evaluate. inv_after.
    + classify Hinv w this; classify Hinv w other; evaluate; inv_after.
  - classify Hinv w this; evaluate; inv_after.
Qed.

Ltac ready_after :=
  first
    [ match goal with Hr : is_Some None |- _ => by destruct Hr end
    | congruence
    | eexists; reflexivity ].

Lemma run_op_progress (o : op T) (w : world T) :
  world_inv w → op_ready w o → ∃ w', run_op o w = Ok (tt, w').
Proof.
  intros Hinv Hready.
  destruct o as [this|this|this v|this other|this other|this other|this other
                 |this v|this|this|this other|this other|this]; simpl in *.
  - evaluate. ready_after.
  - evaluate. ready_after.
  - evaluate. ready_after.
  - destruct Hready as [Hthis Hother].
    classify Hinv w other; evaluate; ready_after.
  - destruct Hready as [Hthis Hother].
    classify Hinv w other; evaluate; ready_after.
  - destruct Hready as [Hthis Hother]. destruct (decide (other = this)) as [->|Hne].
    + evaluate. ready_after.
    + classify Hinv w this; classify Hinv w other; evaluate; ready_after.
  - destruct Hready as [Hthis Hother]. destruct (decide (other = this)) as [->|Hne].
    + evaluate. ready_after.
    + classify Hinv w this; classify Hinv w other; evaluate; ready_after.
  - classify Hinv w this; evaluate; ready_after.
  - classify Hinv w this; evaluate; ready_after.
  - classify Hinv w this; evaluate; ready_after.
  - destruct Hready as [Hthis Hother]. destruct (decide (other = this)) as [->|Hne].
    + evaluate. ready_after.
    + classify Hinv w this; classify Hinv w other; evaluate; ready_after.
  - destruct Hready as [Hthis Hother]. destruct (decide (other = this)) as [->|Hne].
    + evaluate. ready_after.
    + classify Hinv w this; classify Hinv w other; evaluate; ready_after.
  - classify Hinv w this; evaluate; ready_after.
Qed.

Lemma run_inv (p : list (op T)) (w : world T) :
  world_inv w → balanced w →
  match run p w with
  | Ok (_, w') => world_inv w' ∧ balanced w'
  | Fault f => caller_fault f
  end.
Proof.
  revert w. induction p as [|o p IH]; intros w Hinv Hbal; simpl.
  - split; assumption.
  - unfold bind.
    pose proof (run_op_inv o w Hinv) as Hstep.
    pose proof (run_op_balanced o w Hbal) as Hstep'.
    destruct (run_op o w) as [[[] w']|f]; [| exact Hstep].
    apply IH; assumption.
Qed.

End InvariantKept.

(** ** The claims *)

Section Invariant.
Context {T : Type} `{Contained T}.

(** C1.  Along every sequence of the public operations, started with no
    objects, each optional's storage holds a live [T] if and only if
    [has_value()] is true; the container never runs a destructor on storage
    without a live value and never overwrites or abandons a live value (the
    only faults are the caller's misuse of addresses); the values it
    constructed are those it destroyed plus those still held, so that none is
    left once every optional is gone; and any further operation on proper
    addresses runs to completion. *)
Theorem storage_live_iff_has_value (p : list (op T)) :
  match run p empty_world with
  | Ok (_, w) =>
      (∀ a o, objects w !! a = Some o → (holds_live o ↔ has_value o = true)) ∧
      constructed w = destroyed w + live_count (objects w) ∧
      (objects w = ∅ → constructed w = destroyed w) ∧
      (∀ o, op_ready w o → ∃ w', run_op o w = Ok (tt, w'))
  | Fault f => caller_fault f
  end.
Proof.
  assert (Hinv0 : world_inv (@empty_world T)).
  { intros a o Hat. simpl in Hat. by rewrite lookup_empty in Hat. }
  assert (Hbal0 : balanced (@empty_world T)).
  { unfold balanced. simpl. exact (eq_sym live_count_empty). }
  pose proof (run_inv p empty_world Hinv0 Hbal0) as Hrun.
  destruct (run p empty_world) as [[[] w]|f]; [| exact Hrun].
  destruct Hrun as [Hinv Hbal]. split; [| split; [| split]].
  - intros a o Hat. apply optional_inv_iff. exact (Hinv a o Hat).
  - exact Hbal.
  - intros Hnone. unfold balanced in Hbal.
    rewrite Hnone, live_count_empty in Hbal. lia.
  - intros o. by apply run_op_progress.
Qed.

End Invariant.

(** The test [swapping] and its closing [balance] check. *)
Lemma storage_live_iff_has_value_witness :
  run scenario.swapping empty_world = Ok (tt, mk_world ∅ 4 4) ∧
  match run scenario.swapping empty_world with
  | Ok (_, w) => constructed w = destroyed w
  | Fault _ => False
  end.
Proof.
  split; [vm_compute; reflexivity |].
  pose proof (storage_live_iff_has_value scenario.swapping) as Hrun.
  destruct (run scenario.swapping empty_world) as [[[] w]|f] eqn:Erun.
  - destruct Hrun as (_ & Hbal & Hgone & _). apply Hgone.
    vm_compute in Erun. by injection Erun as <-.
  - vm_compute in Erun. discriminate Erun.
Defined.

Section MoveConstruction.
Context {T : Type} `{Contained T}.

(** C3.  Move construction at a fresh address from a source that satisfies
    the class invariant always completes and leaves the source empty, with
    raw storage.  If the source had a value [v], the new optional holds the
    [T] move-constructed from [v] and the source's [T] has been destroyed;
    if the source was empty, the new optional is empty and the source is as
    it was.  No other object changes. *)
Theorem move_construction (w : world T) (this other : addr) (src : optional T) :
  objects w !! this = None →
  objects w !! other = Some src →
  optional_inv src →
  ∃ w',
    optional_move this other w = Ok (tt, w') ∧
    objects w' !! other = Some absent ∧
    (∀ a, a ≠ this → a ≠ other → objects w' !! a = objects w !! a) ∧
    (has_value src = true →
       ∃ v, src = present v ∧
         objects w' !! this = Some (present (fst (move_ctor v))) ∧
         constructed w' = S (constructed w) ∧
         destroyed w' = S (destroyed w)) ∧
    (has_value src = false →
       objects w' !! this = Some absent ∧
       objects w' !! other = Some src ∧
       constructed w' = constructed w ∧
       destroyed w' = destroyed w).
Proof.
  intros Hthis Hother Hinv. assert (this ≠ other) by congruence.
  apply optional_inv_cases in Hinv. destruct Hinv as [-> | [v ->]].
  - rewrite (optional_move_absent w this other Hthis Hother).
    eexists. split; [reflexivity |]. simpl.
    split; [by simplify_map_eq |].
    split; [intros; by simplify_map_eq |].
    split; [discriminate |].
    intros _. repeat split; by simplify_map_eq.
  - rewrite (optional_move_present w this other v Hthis Hother).
    eexists. split; [reflexivity |]. simpl.
    split; [by simplify_map_eq |].
    split; [intros; by simplify_map_eq |].
    split; [| discriminate].
    intros _. exists v. repeat split. by simplify_map_eq.
Qed.

End MoveConstruction.

(** [fit::optional<slot> a({42}); fit::optional<slot> d(std::move(a));] *)
Lemma move_construction_witness :
  ∃ w',
    optional_move scenario.d scenario.a scenario.abc = Ok (tt, w') ∧
    objects w' !! scenario.a = Some absent ∧
    objects w' !! scenario.d = Some (present (optional_tests.mk_slot 42)).
Proof.
  destruct (move_construction scenario.abc scenario.d scenario.a
              (present (optional_tests.mk_slot 42)))
    as (w' & Hrun & Hsrc & _ & Hfull & _); [reflexivity .. |].
  exists w'. split; [exact Hrun |]. split; [exact Hsrc |].
  destruct (Hfull eq_refl) as (v & Hv & Hdst & _).
  injection Hv as <-. exact Hdst.
Defined.

Section Assignment.
Context {T : Type} `{Contained T}.

(** C4.  Move assignment between two optionals that satisfy the class
    invariant.  When source and target are the same object nothing changes.
    Otherwise: both present, the source's value is move-assigned into the
    target's [T]; target present and source empty, the target's value is
    destroyed and the target is empty; target empty and source present, a
    [T] is move-constructed in the target, which becomes present; both
    empty, nothing changes.  Whenever a distinct source was present its
    value is destroyed and it is empty afterwards. *)
Theorem move_assignment (w : world T) (this other : addr) (dst src : optional T) :
  objects w !! this = Some dst →
  objects w !! other = Some src →
  optional_inv dst →
  optional_inv src →
  operator_assign_move this this w = Ok (this, w) ∧
  (other ≠ this →
     ∃ w',
       operator_assign_move this other w = Ok (this, w') ∧
       w' = match value_ dst, value_ src with
            | Live x, Live y =>
                mk_world (<[other := absent]>
                            (<[this := present (fst (move_assign x y))]> (objects w)))
                         (constructed w) (S (destroyed w))
            | Live x, Raw =>
                mk_world (<[this := absent]> (objects w))
                         (constructed w) (S (destroyed w))
            | Raw, Live y =>
                mk_world (<[other := absent]>
                            (<[this := present (fst (move_ctor y))]> (objects w)))
                         (S (constructed w)) (S (destroyed w))
            | Raw, Raw => w
            end ∧
       (has_value src = true →
          objects w' !! other = Some absent ∧
          destroyed w' = S (destroyed w) ∧
          has_value <$> objects w' !! this = Some true)).
Proof.
  intros Hthis Hother Hdst Hsrc. split; [apply assign_move_self |].
  intros Hne. assert (this ≠ other) by congruence.
  apply optional_inv_cases in Hdst, Hsrc.
  destruct Hdst as [-> | [x ->]], Hsrc as [-> | [y ->]]; eexists.
  - split; [by apply assign_move_neither |]. split; [reflexivity | discriminate].
  - split; [by apply assign_move_into_absent |]. split; [reflexivity |].
    intros _. simpl. by simplify_map_eq.
  - split; [by eapply assign_move_from_absent |]. split; [reflexivity | discriminate].
  - split; [by apply assign_move_both |]. split; [reflexivity |].
    intros _. simpl. by simplify_map_eq.
Qed.

(** C5.  Copy assignment between two optionals that satisfy the class
    invariant.  When source and target are the same object nothing changes.
    Otherwise: both present, the target's [T] is copy-assigned in place and
    nothing is constructed or destroyed; target present and source empty,
    the target's value is destroyed and the target is empty; target empty
    and source present, a copy is constructed in the target, which becomes
    present; both empty, nothing changes.  The source is never changed. *)
Theorem copy_assignment (w : world T) (this other : addr) (dst src : optional T) :
  objects w !! this = Some dst →
  objects w !! other = Some src →
  optional_inv dst →
  optional_inv src →
  operator_assign_copy this this w = Ok (this, w) ∧
  (other ≠ this →
     ∃ w',
       operator_assign_copy this other w = Ok (this, w') ∧
       w' = match value_ dst, value_ src with
            | Live x, Live y =>
                mk_world (<[this := present (copy_assign x y)]> (objects w))
                         (constructed w) (destroyed w)
            | Live x, Raw =>
                mk_world (<[this := absent]> (objects w))
                         (constructed w) (S (destroyed w))
            | Raw, Live y =>
                mk_world (<[this := present (copy_ctor y)]> (objects w))
                         (S (constructed w)) (destroyed w)
            | Raw, Raw => w
            end ∧
       objects w' !! other = Some src).
Proof.
  intros Hthis Hother Hdst Hsrc. split; [apply assign_copy_self |].
  intros Hne. assert (this ≠ other) by congruence.
  apply optional_inv_cases in Hdst, Hsrc.
  destruct Hdst as [-> | [x ->]], Hsrc as [-> | [y ->]]; eexists.
  - split; [by apply assign_copy_neither |]. by split.
  - split; [by apply assign_copy_into_absent |]. split; [reflexivity |].
    simpl. by simplify_map_eq.
  - split; [by eapply assign_copy_from_absent |]. split; [reflexivity |].
    simpl. by simplify_map_eq.
  - split; [by apply assign_copy_both |]. split; [reflexivity |].
    simpl. by simplify_map_eq.
Qed.

End Assignment.

(** [a = std::move(b)] in the test [assign_move]: [a] holds 55, [b] is
    empty. *)
Lemma move_assignment_witness :
  operator_assign_move scenario.a scenario.b scenario.abc =
    Ok (scenario.a,
        mk_world (<[scenario.b := absent]>
                    (<[scenario.a := present (optional_tests.mk_slot 55)]>
                       (objects scenario.abc))) 2 1).
Proof.
  destruct (move_assignment scenario.abc scenario.a scenario.b
              (present (optional_tests.mk_slot 42))
              (present (optional_tests.mk_slot 55)))
    as [_ Hdistinct]; [reflexivity .. |].
  destruct Hdistinct as (w' & Hrun & -> & _); [discriminate |].
  exact Hrun.
Defined.

(** [a = b] in the test [assign_copy]: [a] holds 55 and [b] still does. *)
Lemma copy_assignment_witness :
  operator_assign_copy scenario.a scenario.b scenario.abc =
    Ok (scenario.a,
        mk_world (<[scenario.a := present (optional_tests.mk_slot 55)]>
                    (objects scenario.abc)) 2 0).
Proof.
  destruct (copy_assignment scenario.abc scenario.a scenario.b
              (present (optional_tests.mk_slot 42))
              (present (optional_tests.mk_slot 55)))
    as [_ Hdistinct]; [reflexivity .. |].
  destruct Hdistinct as (w' & Hrun & -> & _); [discriminate |].
  exact Hrun.
Defined.

Section Swapping.
Context {T : Type} `{Contained T}.

(** C6.  [swap] between two optionals that satisfy the class invariant.
    Swapping an optional with itself changes nothing.  Otherwise: both
    present, the two [T] are exchanged by [swap] on [T], nothing being
    constructed or destroyed in the storage; exactly one present, its value
    is move-constructed into the empty side, which becomes present, and the
    side it came from has its value destroyed and is empty; both empty,
    nothing changes.  The free function is the member function. *)
Theorem swap_cases (w : world T) (this other : addr) (l r : optional T) :
  objects w !! this = Some l →
  objects w !! other = Some r →
  optional_inv l →
  optional_inv r →
  swap this this w = Ok (tt, w) ∧
  free_swap this other w = swap this other w ∧
  (other ≠ this →
     swap this other w =
       Ok (tt,
           match value_ l, value_ r with
           | Live x, Live y =>
               mk_world (<[other := present (snd (adl_swap x y))]>
                           (<[this := present (fst (adl_swap x y))]> (objects w)))
                        (constructed w) (destroyed w)
           | Live x, Raw =>
               mk_world (<[this := absent]>
                           (<[other := present (fst (move_ctor x))]> (objects w)))
                        (S (constructed w)) (S (destroyed w))
           | Raw, Live y =>
               mk_world (<[other := absent]>
                           (<[this := present (fst (move_ctor y))]> (objects w)))
                        (S (constructed w)) (S (destroyed w))
           | Raw, Raw => w
           end)).
Proof.
  intros Hthis Hother Hl Hr. split; [apply swap_self |]. split; [reflexivity |].
  intros Hne. assert (this ≠ other) by congruence.
  apply optional_inv_cases in Hl, Hr.
  destruct Hl as [-> | [x ->]], Hr as [-> | [y ->]]; simpl.
  - by apply swap_neither.
  - by apply swap_into_this.
  - by apply swap_into_other.
  - by apply swap_both.
Qed.

End Swapping.

(** [swap(a, b)] in the test [swapping]: [a] holds 55 and [b] holds 42. *)
Lemma swap_cases_witness :
  free_swap scenario.a scenario.b scenario.abc =
    Ok (tt,
        mk_world (<[scenario.b := present (optional_tests.mk_slot 42)]>
                    (<[scenario.a := present (optional_tests.mk_slot 55)]>
                       (objects scenario.abc))) 2 0).
Proof.
  destruct (swap_cases scenario.abc scenario.a scenario.b
              (present (optional_tests.mk_slot 42))
              (present (optional_tests.mk_slot 55)))
    as (_ & -> & Hdistinct); [reflexivity .. |].
  exact (Hdistinct ltac:(discriminate)).
Defined.

Section ValueOr.
Context {T U : Type} `{Contained T} `{StaticCast U T}.

(** C8.  On an optional that satisfies the class invariant,
    [value_or(d)] returns a copy of the contained value when there is one
    and the [T] converted from [d] when there is none, and the whole store,
    the optional included, is afterwards what it was before. *)
Theorem value_or_pure (w : world T) (this : addr) (o : optional T) (d : U) :
  objects w !! this = Some o →
  optional_inv o →
  value_or this d w =
    Ok (match value_ o with
        | Live v => copy_ctor v
        | Raw => static_cast d
        end, w) ∧
  (has_value o = true ↔ ∃ v, value_ o = Live v) ∧
  effect (value_or this d w) = Ok w.
Proof.
  intros Hthis Hinv. apply optional_inv_cases in Hinv.
  destruct Hinv as [-> | [v ->]]; evaluate.
  - repeat split; try discriminate. intros [v Hv]. discriminate Hv.
  - repeat split. intros _. by exists v.
Qed.

End ValueOr.

(** [opt.value_or({55})] on a present optional and [opt.value_or({42})] on
    an empty one, as in the tests. *)
Lemma value_or_pure_witness :
  value_or scenario.a (optional_tests.mk_slot 55) scenario.abc =
    Ok (optional_tests.mk_slot 42, scenario.abc) ∧
  value_or scenario.c (optional_tests.mk_slot 42) scenario.abc =
    Ok (optional_tests.mk_slot 42, scenario.abc).
Proof.
  split.
  - exact (proj1 (value_or_pure scenario.abc scenario.a
                    (present (optional_tests.mk_slot 42))
                    (optional_tests.mk_slot 55) eq_refl eq_refl)).
  - exact (proj1 (value_or_pure scenario.abc scenario.c absent
                    (optional_tests.mk_slot 42) eq_refl eq_refl)).
Defined.

Section Sentinel.
Context {T : Type} `{Contained T}.

(** C9.  Construction from [nullopt] is default construction: both give an
    empty optional and construct no [T].  Assigning [nullopt] leaves the
    store exactly as [reset()] does, and on an optional that satisfies the
    class invariant that is: the value destroyed and the optional empty if
    it was present, nothing changed if it was empty. *)
Theorem nullopt_is_default_and_reset (w : world T) (this : addr) :
  (∀ o, objects w !! this = Some o → optional_inv o) →
  optional_nullopt this nullopt w = optional_default this w ∧
  effect (optional_default this w) = construct_empty_spec this w ∧
  effect (operator_assign_nullopt this nullopt w) = effect (reset this w) ∧
  effect (reset this w) = reset_spec this w ∧
  rmap fst (operator_assign_nullopt this nullopt w) =
    rmap (fun _ => this) (reset this w).
Proof.
  intros Hinv. split; [reflexivity |].
  split. { unfold construct_empty_spec. by destruct (objects w !! this) eqn:E; evaluate. }
  split. { rewrite assign_nullopt_is_reset. by destruct (reset this w) as [[[] ?]|]. }
  split.
  - unfold reset_spec. destruct (objects w !! this) as [o|] eqn:E.
    + specialize (Hinv o eq_refl). apply optional_inv_cases in Hinv.
      destruct Hinv as [-> | [v ->]].
      * by rewrite (reset_absent w this E).
      * by rewrite (reset_present w this v E).
    + by evaluate.
  - rewrite assign_nullopt_is_reset. by destruct (reset this w) as [[[] ?]|].
Qed.

End Sentinel.

(** [a = fit::nullopt] on the present [a] of the tests, and on the empty
    [c]. *)
Lemma nullopt_is_default_and_reset_witness :
  effect (operator_assign_nullopt scenario.a nullopt scenario.abc) =
    Ok (mk_world (<[scenario.a := absent]> (objects scenario.abc)) 2 1) ∧
  effect (operator_assign_nullopt scenario.c nullopt scenario.abc) =
    Ok scenario.abc.
Proof.
  split.
  - destruct (nullopt_is_default_and_reset scenario.abc scenario.a)
      as (_ & _ & -> & -> & _); [| reflexivity].
    intros o Hat. vm_compute in Hat. by injection Hat as <-.
  - destruct (nullopt_is_default_and_reset scenario.abc scenario.c)
      as (_ & _ & -> & -> & _); [| reflexivity].
    intros o Hat. vm_compute in Hat. by injection Hat as <-.
Defined.

Section Dereference.
Context {T : Type}.

(** C2, as the code has it.  The four dereference operators hand back the
    storage without any check.  On an optional whose flag is set they agree
    with [value()], and the reference read as a [T] gives the contained
    value.  On an optional whose flag is clear [value()] stops at its
    assertion, whereas the dereference operators still return the storage:
    no assertion fails, and a read through the result finds no live [T]. *)
Theorem dereference_is_unchecked (o : optional T) (v : T) :
  operator_arrow o = Ok (value_ o) ∧
  operator_arrow_const o = Ok (value_ o) ∧
  operator_star o = Ok (value_ o) ∧
  operator_star_const o = Ok (value_ o) ∧
  (if has_value o
   then value o = operator_star o ∧ value o = operator_arrow o ∧
        value_const o = operator_star_const o ∧
        value_const o = operator_arrow_const o
   else value o = Fault AssertFailed ∧ value_const o = Fault AssertFailed) ∧
  rbind (value (present v)) read = Ok v ∧
  rbind (operator_star (present v)) read = Ok v ∧
  rbind (operator_arrow (present v)) read = Ok v ∧
  rbind (operator_star (@absent T)) read = Fault DeadAccess ∧
  rbind (operator_arrow (@absent T)) read = Fault DeadAccess.
Proof.
  repeat (split; [reflexivity |]).
  split; [| repeat split].
  unfold has_value, value, value_const, operator_star, operator_arrow,
    operator_star_const, operator_arrow_const.
  destruct (has_value_ o); repeat split.
Qed.

End Dereference.

(** C2, as stated, fails on an empty [fit::optional<slot>]: [value()] ends
    in the failed assertion, the dereference operators do not. *)
Lemma dereference_asserts_counterexample :
  fit.value (@absent optional_tests.slot) = Fault AssertFailed ∧
  fit.value_const (@absent optional_tests.slot) = Fault AssertFailed ∧
  operator_star (@absent optional_tests.slot) = Ok Raw ∧
  operator_star_const (@absent optional_tests.slot) = Ok Raw ∧
  operator_arrow (@absent optional_tests.slot) = Ok Raw ∧
  operator_arrow_const (@absent optional_tests.slot) = Ok Raw ∧
  ¬ (operator_star (@absent optional_tests.slot) =
       fit.value (@absent optional_tests.slot)) ∧
  ¬ (operator_arrow (@absent optional_tests.slot) =
       fit.value (@absent optional_tests.slot)).
Proof. repeat split; discriminate. Qed.

Section Equality.
Context {T U : Type} `{Comparable T U}.

Ltac run_comparison :=
  unfold operator_eq_opt_nullopt, operator_ne_opt_nullopt,
    operator_eq_nullopt_opt, operator_ne_nullopt_opt, operator_eq_opt_opt,
    operator_ne_opt_opt, operator_eq_opt_val, operator_ne_opt_val,
    operator_eq_val_opt, operator_ne_val_opt, operator_star_const, has_value;
  simpl.

(** What each comparison operator returns on optionals that satisfy the
    class invariant, in terms of the [==] and [!=] of the contained
    types. *)
Lemma comparison_results (a : optional T) (b : optional U) (t : T) (u : U) :
  optional_inv a →
  optional_inv b →
  (operator_eq_opt_nullopt a nullopt = Ok (negb (has_value a)) ∧
   operator_eq_nullopt_opt nullopt a = operator_eq_opt_nullopt a nullopt ∧
   operator_ne_opt_nullopt a nullopt = rmap negb (operator_eq_opt_nullopt a nullopt) ∧
   operator_ne_nullopt_opt nullopt a = rmap negb (operator_eq_nullopt_opt nullopt a)) ∧
  (operator_eq_opt_opt a b =
     Ok (match value_ a, value_ b with
         | Live x, Live y => op_eq x y
         | Raw, Raw => true
         | _, _ => false
         end) ∧
   (operator_eq_opt_opt a b = Ok true ↔
      (∃ x y, a = present x ∧ b = present y ∧ op_eq x y = true) ∨
      (a = absent ∧ b = absent))) ∧
  (operator_eq_opt_val a u =
     Ok (match value_ a with Live x => op_eq x u | Raw => false end) ∧
   (operator_eq_opt_val a u = Ok true ↔ ∃ x, a = present x ∧ op_eq x u = true) ∧
   operator_eq_val_opt t b =
     Ok (match value_ b with Live y => op_eq t y | Raw => false end) ∧
   (operator_eq_val_opt t b = Ok true ↔ ∃ y, b = present y ∧ op_eq t y = true)) ∧
  (operator_ne_opt_opt a b =
     Ok (match value_ a, value_ b with
         | Live x, Live y => op_ne x y
         | Raw, Raw => false
         | _, _ => true
         end) ∧
   operator_ne_opt_val a u =
     Ok (match value_ a with Live x => op_ne x u | Raw => true end) ∧
   operator_ne_val_opt t b =
     Ok (match value_ b with Live y => op_ne t y | Raw => true end)) ∧
  ((∀ x y, op_ne x y = negb (op_eq x y)) →
   operator_ne_opt_opt a b = rmap negb (operator_eq_opt_opt a b) ∧
   operator_ne_opt_val a u = rmap negb (operator_eq_opt_val a u) ∧
   operator_ne_val_opt t b = rmap negb (operator_eq_val_opt t b)).
Proof.
  intros Ha Hb. apply optional_inv_cases in Ha, Hb.
  destruct Ha as [-> | [x ->]], Hb as [-> | [y ->]]; run_comparison.
  all: repeat match goal with |- _ ∧ _ => split end; try reflexivity.
  all: try (intros Hne; rewrite ?Hne; by repeat split).
  all: split; intros Hyp; simplify_eq.
  all: try (destruct Hyp as [(? & ? & ? & ? & ?) | [? ?]]; simplify_eq).
  all: try (destruct Hyp as (? & ? & ?); simplify_eq).
  all: try done.
  all: try (f_equal; assumption).
  all: eauto 8.
Qed.

(** C10.  On optionals that satisfy the class invariant no comparison
    operator faults: none reads the storage of an empty optional.  More
    precisely, once a side is flagged empty the outcome is decided by the
    flags alone, whatever the storages hold. *)
Theorem comparisons_never_fault (a : optional T) (b : optional U) (t : T) (u : U)
    (cell : storage T) (cell' : storage U) :
  optional_inv a →
  optional_inv b →
  (is_ok (operator_eq_opt_nullopt a nullopt) ∧
   is_ok (operator_ne_opt_nullopt a nullopt) ∧
   is_ok (operator_eq_nullopt_opt nullopt a) ∧
   is_ok (operator_ne_nullopt_opt nullopt a) ∧
   is_ok (operator_eq_opt_opt a b) ∧
   is_ok (operator_ne_opt_opt a b) ∧
   is_ok (operator_eq_opt_val a u) ∧
   is_ok (operator_ne_opt_val a u) ∧
   is_ok (operator_eq_val_opt t b) ∧
   is_ok (operator_ne_val_opt t b)) ∧
  (operator_eq_opt_opt (mk_optional false cell) b = Ok (negb (has_value b)) ∧
   operator_ne_opt_opt (mk_optional false cell) b = Ok (has_value b) ∧
   operator_eq_opt_opt a (mk_optional false cell') = Ok (negb (has_value a)) ∧
   operator_ne_opt_opt a (mk_optional false cell') = Ok (has_value a) ∧
   operator_eq_opt_val (mk_optional false cell) u = Ok false ∧
   operator_ne_opt_val (mk_optional false cell) u = Ok true ∧
   operator_eq_val_opt t (mk_optional false cell') = Ok false ∧
   operator_ne_val_opt t (mk_optional false cell') = Ok true).
Proof.
  intros Ha Hb. apply optional_inv_cases in Ha, Hb.
  destruct Ha as [-> | [x ->]], Hb as [-> | [y ->]]; run_comparison;
    repeat match goal with |- _ ∧ _ => split end; exact I || reflexivity.
Qed.

End Equality.

Ltac unfold_comparisons :=
  unfold operator_eq_opt_nullopt, operator_ne_opt_nullopt,
    operator_eq_nullopt_opt, operator_ne_nullopt_opt, operator_eq_opt_opt,
    operator_ne_opt_opt, operator_eq_opt_val, operator_ne_opt_val,
    operator_eq_val_opt, operator_ne_val_opt, operator_star_const, has_value;
  simpl.

Section EqualityProtocol.
Context {T U : Type} `{CTU : Comparable T U} `{CUT : Comparable U T}.

(** C7, as the code has it.  For optionals that satisfy the class
    invariant: an optional equals [nullopt] exactly when it is empty, with
    [nullopt] on either side, and [!=] against [nullopt] is the negation of
    [==]; two optionals are equal exactly when both are present and the
    [==] of the contained types holds of their values, or both are empty;
    an optional equals a raw value exactly when it is present and [==]
    holds of its value and the raw value, so an empty optional equals no
    raw value; the form with the raw value on the left is the same with the
    operands of [==] in that order, and gives the result of the form with
    the raw value on the right exactly when [==] answers the same in both
    orders for the value held.  The other [!=] operators apply the [!=] of
    the contained types where the [==] operators apply their [==]: each is
    the negation of its [==] exactly when that [!=] negates that [==] on
    the values held, and always when a side is empty. *)
Theorem equality_protocol (a : optional T) (b : optional U) (t : T) (u : U) :
  optional_inv a →
  optional_inv b →
  (operator_eq_opt_nullopt a nullopt = Ok (negb (has_value a)) ∧
   operator_eq_nullopt_opt nullopt a = operator_eq_opt_nullopt a nullopt ∧
   operator_ne_opt_nullopt a nullopt = rmap negb (operator_eq_opt_nullopt a nullopt) ∧
   operator_ne_nullopt_opt nullopt a = rmap negb (operator_eq_nullopt_opt nullopt a)) ∧
  (operator_eq_opt_opt a b =
     Ok (match value_ a, value_ b with
         | Live x, Live y => op_eq x y
         | Raw, Raw => true
         | _, _ => false
         end) ∧
   (operator_eq_opt_opt a b = Ok true ↔
      (∃ x y, a = present x ∧ b = present y ∧ op_eq x y = true) ∨
      (a = absent ∧ b = absent))) ∧
  (operator_eq_opt_val a u =
     Ok (match value_ a with Live x => op_eq x u | Raw => false end) ∧
   (operator_eq_opt_val a u = Ok true ↔ ∃ x, a = present x ∧ op_eq x u = true) ∧
   operator_eq_val_opt t b =
     Ok (match value_ b with Live y => op_eq t y | Raw => false end) ∧
   (operator_eq_val_opt t b = Ok true ↔ ∃ y, b = present y ∧ op_eq t y = true)) ∧
  ((operator_eq_val_opt u a = operator_eq_opt_val a u ↔
      ∀ x, a = present x → op_eq u x = op_eq x u) ∧
   (operator_ne_val_opt u a = operator_ne_opt_val a u ↔
      ∀ x, a = present x → op_ne u x = op_ne x u)) ∧
  (operator_ne_opt_opt a b =
     Ok (match value_ a, value_ b with
         | Live x, Live y => op_ne x y
         | Raw, Raw => false
         | _, _ => true
         end) ∧
   operator_ne_opt_val a u =
     Ok (match value_ a with Live x => op_ne x u | Raw => true end) ∧
   operator_ne_val_opt t b =
     Ok (match value_ b with Live y => op_ne t y | Raw => true end)) ∧
  ((operator_ne_opt_opt a b = rmap negb (operator_eq_opt_opt a b) ↔
      ∀ x y, a = present x → b = present y → op_ne x y = negb (op_eq x y)) ∧
   (operator_ne_opt_val a u = rmap negb (operator_eq_opt_val a u) ↔
      ∀ x, a = present x → op_ne x u = negb (op_eq x u)) ∧
   (operator_ne_val_opt t b = rmap negb (operator_eq_val_opt t b) ↔
      ∀ y, b = present y → op_ne t y = negb (op_eq t y))).
Proof.
  intros Ha Hb.
  destruct (comparison_results a b t u Ha Hb)
    as (Hnull & Hoo & Hraw & Hne & _).
  split; [exact Hnull |]. split; [exact Hoo |]. split; [exact Hraw |].
  apply optional_inv_cases in Ha, Hb.
  split; [| split; [exact Hne |]].
  - destruct Ha as [-> | [x ->]]; unfold_comparisons.
    + split; (split; [intros _ x [=] | reflexivity]).
    + split; (split; [intros [= Heq] x' [= <-]; exact Heq
                     | intros Heq; f_equal; by apply Heq]).
  - destruct Ha as [-> | [x ->]], Hb as [-> | [y ->]]; unfold_comparisons.
    all: repeat match goal with |- _ ∧ _ => split end.
    all: split; [| try reflexivity].
    all: try (intros _; intros; discriminate).
    all: try (intros [= Heq]; intros; simplify_eq; exact Heq).
    all: intros Heq; f_equal; by apply Heq.
Qed.

End EqualityProtocol.

(** C7, as stated, fails on contained types the template accepts.  With
    the type whose [==] and [!=] both answer true, [a == b] and [a != b]
    are both true for present optionals, and so are the raw-value forms on
    both sides; with the type whose [==] depends on the order of its
    operands, [optional(true) == false] is true and
    [false == optional(true)] is false. *)
Lemma inequality_negates_equality_counterexample :
  @operator_eq_opt_opt _ _ yes_to_both (present tt) (present tt) = Ok true ∧
  @operator_ne_opt_opt _ _ yes_to_both (present tt) (present tt) = Ok true ∧
  @operator_eq_opt_val _ _ yes_to_both (present tt) tt = Ok true ∧
  @operator_ne_opt_val _ _ yes_to_both (present tt) tt = Ok true ∧
  @operator_eq_val_opt _ _ yes_to_both tt (present tt) = Ok true ∧
  @operator_ne_val_opt _ _ yes_to_both tt (present tt) = Ok true ∧
  @operator_ne_opt_opt _ _ yes_to_both (present tt) (present tt) ≠
    rmap negb (@operator_eq_opt_opt _ _ yes_to_both (present tt) (present tt)) ∧
  @operator_eq_opt_val _ _ one_sided (present true) false = Ok true ∧
  @operator_eq_val_opt _ _ one_sided false (present true) = Ok false.
Proof. repeat split. discriminate. Qed.

(** [a == b], [a != b], [a == slot{55}] and [slot{55} == a] for
    [a({42})], [b({55})] in the test [comparisons]. *)
Lemma equality_protocol_witness :
  operator_eq_opt_opt (present (optional_tests.mk_slot 42))
                      (present (optional_tests.mk_slot 55)) = Ok false ∧
  operator_ne_opt_opt (present (optional_tests.mk_slot 42))
                      (present (optional_tests.mk_slot 55)) = Ok true ∧
  operator_eq_val_opt (optional_tests.mk_slot 55)
                      (present (optional_tests.mk_slot 42)) =
    operator_eq_opt_val (present (optional_tests.mk_slot 42))
                        (optional_tests.mk_slot 55).
Proof.
  destruct (equality_protocol
              (present (optional_tests.mk_slot 42))
              (present (optional_tests.mk_slot 55))
              (optional_tests.mk_slot 42) (optional_tests.mk_slot 55))
    as (_ & [Heq _] & _ & [Hmirror _] & _ & [Hneg _]);
    [reflexivity | reflexivity |].
  split; [exact Heq |]. split.
  - rewrite (proj2 Hneg), Heq; [reflexivity |].
    intros x y _ _. reflexivity.
  - apply Hmirror. intros x [= <-]. reflexivity.
Defined.

(** [a == d] and [slot{42} != d] for [a({42})] and the empty [d] in the
    test [comparisons]. *)
Lemma comparisons_never_fault_witness :
  is_ok (operator_eq_opt_opt (present (optional_tests.mk_slot 42))
                             (@absent optional_tests.slot)) ∧
  is_ok (operator_ne_val_opt (optional_tests.mk_slot 42)
                             (@absent optional_tests.slot)).
Proof.
  destruct (comparisons_never_fault
              (present (optional_tests.mk_slot 42)) (@absent optional_tests.slot)
              (optional_tests.mk_slot 42) (optional_tests.mk_slot 42) Raw Raw)
    as [(_ & _ & _ & _ & Heq & _ & _ & _ & _ & Hne) _];
    [reflexivity | reflexivity |].
  split; [exact Heq | exact Hne].
Defined.

(** ** The test suite replayed on the model *)

Example declarations_give_abc :
  run scenario.declarations empty_world = Ok (tt, scenario.abc).
Proof. vm_compute. reflexivity. Qed.

(** [assign_move]: at the end [b] holds 55, [a] and [c] are empty. *)
Example assign_move_replayed :
  run scenario.assign_move empty_world =
    Ok (tt, mk_world (<[scenario.c := absent]>
                        (<[scenario.b := present (optional_tests.mk_slot 55)]>
                           (<[scenario.a := absent]> ∅))) 3 2).
Proof. vm_compute. reflexivity. Qed.

(** [assign_copy]: at the end [a] and [b] hold 55, [c] is empty. *)
Example assign_copy_replayed :
  run scenario.assign_copy empty_world =
    Ok (tt, mk_world (<[scenario.c := absent]>
                        (<[scenario.b := present (optional_tests.mk_slot 55)]>
                           (<[scenario.a := present (optional_tests.mk_slot 55)]> ∅)))
                     3 1).
Proof. vm_compute. reflexivity. Qed.

(** [assign]: one slot constructed by the constructor, one by the
    assignment after [reset()], both destroyed. *)
Example assign_replayed :
  run scenario.assign empty_world = Ok (tt, mk_world ∅ 2 2).
Proof. vm_compute. reflexivity. Qed.

(** [comparisons], with [a({42})], [b({55})], [c({42})] and the empty [d]. *)
Example comparisons_replayed :
  let a := present (optional_tests.mk_slot 42) in
  let b := present (optional_tests.mk_slot 55) in
  let c := present (optional_tests.mk_slot 42) in
  let d := @absent optional_tests.slot in
  operator_eq_opt_opt a b = Ok false ∧
  operator_eq_opt_opt a c = Ok true ∧
  operator_eq_opt_opt a d = Ok false ∧
  operator_eq_opt_opt d d = Ok true ∧
  operator_eq_opt_nullopt a nullopt = Ok false ∧
  operator_eq_opt_val a (optional_tests.mk_slot 42) = Ok true ∧
  operator_eq_val_opt (optional_tests.mk_slot 55) a = Ok false ∧
  operator_eq_opt_val d (optional_tests.mk_slot 42) = Ok false ∧
  operator_eq_nullopt_opt nullopt d = Ok true ∧
  operator_ne_opt_opt a b = Ok true ∧
  operator_ne_opt_opt a c = Ok false ∧
  operator_ne_opt_opt d a = Ok true ∧
  operator_ne_opt_val a (optional_tests.mk_slot 55) = Ok true ∧
  operator_ne_val_opt (optional_tests.mk_slot 42) d = Ok true ∧
  operator_ne_opt_nullopt d nullopt = Ok false.
Proof. repeat split. Qed.

(** ** Beyond the claims: the remaining members and how they compose *)

Section OtherMembers.
Context {T : Type} `{Contained T}.

(** Copy construction at a free address from a source that satisfies the
    class invariant always completes and changes no existing object, the
    source included.  The new optional is present with a copy of the
    source's value when the source is present, one [T] having been
    constructed and none destroyed; it is empty when the source is empty,
    nothing having been constructed. *)
Theorem copy_construction (w : world T) (this other : addr) (src : optional T) :
  objects w !! this = None →
  objects w !! other = Some src →
  optional_inv src →
  optional_copy this other w =
    Ok (tt,
        match value_ src with
        | Live v =>
            mk_world (<[this := present (copy_ctor v)]> (objects w))
                     (S (constructed w)) (destroyed w)
        | Raw =>
            mk_world (<[this := absent]> (objects w))
                     (constructed w) (destroyed w)
        end) ∧
  (has_value src = true ↔ ∃ v, value_ src = Live v) ∧
  (∀ w' a, optional_copy this other w = Ok (tt, w') → a ≠ this →
     objects w' !! a = objects w !! a).
Proof.
  intros Hthis Hother Hinv. assert (this ≠ other) by congruence.
  apply optional_inv_cases in Hinv. destruct Hinv as [-> | [v ->]].
  - rewrite (optional_copy_absent w this other Hthis Hother). simpl.
    split; [reflexivity |]. split.
    + split; [discriminate | intros [v Hv]; discriminate Hv].
    + intros w' a [= <-] Ha. simpl. by rewrite lookup_insert_ne.
  - rewrite (optional_copy_present w this other v Hthis Hother). simpl.
    split; [reflexivity |]. split.
    + split; [by exists v | reflexivity].
    + intros w' a [= <-] Ha. simpl. by rewrite lookup_insert_ne.
Qed.

(** Constructing an optional at a free address and destroying it gives the
    store its objects back.  Constructed from a value, the optional is
    present with the value moved in, and over the round trip exactly one
    [T] is constructed in the storage and one destroyed; default
    constructed, none is. *)
Theorem construct_then_destroy (w : world T) (this : addr) (v : T) :
  objects w !! this = None →
  optional_value this v w =
    Ok (tt, mk_world (<[this := present (fst (move_ctor v))]> (objects w))
                     (S (constructed w)) (destroyed w)) ∧
  effect ((exec optional_value this v in destroy this) w) =
    Ok (mk_world (objects w) (S (constructed w)) (S (destroyed w))) ∧
  effect ((exec optional_default this in destroy this) w) = Ok w.
Proof.
  intros Hthis. split; [by apply optional_value_fresh |]. split.
  - unfold bind at 1. rewrite (optional_value_fresh w this v Hthis).
    erewrite destroy_present by (simpl; apply lookup_insert_eq).
    simpl. by rewrite delete_insert_id.
  - unfold bind at 1. rewrite (optional_default_fresh w this Hthis).
    erewrite destroy_absent by (simpl; apply lookup_insert_eq).
    simpl. rewrite delete_insert_id by done. by destruct w.
Qed.

(** Destroying an optional that satisfies the class invariant always
    completes: the object is gone from the store, no other object changes,
    and the destructor of [T] has run once if the optional was present and
    not at all if it was empty.  The destructor body itself leaves the flag
    as it was. *)
Theorem destruction (w : world T) (this : addr) (o : optional T) :
  objects w !! this = Some o →
  optional_inv o →
  destroy this w =
    Ok (tt, mk_world (delete this (objects w)) (constructed w)
                     (if has_value o then S (destroyed w) else destroyed w)) ∧
  optional_dtor this w =
    Ok (tt, mk_world (<[this := mk_optional (has_value o) Raw]> (objects w))
                     (constructed w)
                     (if has_value o then S (destroyed w) else destroyed w)).
Proof.
  intros Hthis Hinv. apply optional_inv_cases in Hinv.
  destruct Hinv as [-> | [v ->]].
  - rewrite (destroy_absent w this Hthis). split; [reflexivity |].
    evaluate. f_equal. f_equal. destruct w as [m c d]. simpl in *.
    f_equal. symmetry. by apply insert_id.
  - rewrite (destroy_present w this v Hthis). split; [reflexivity |].
    by evaluate.
Qed.

(** Assignment of a value to an optional that satisfies the class invariant
    always completes, returns [*this] and leaves the optional present.  If
    it was present the value is move-assigned into the existing [T] and
    nothing is constructed or destroyed; if it was empty one [T] is
    move-constructed in place.  Reading [value()] afterwards gives the
    assigned [T]. *)
Theorem value_assignment (w : world T) (this : addr) (o : optional T) (v : T) :
  objects w !! this = Some o →
  optional_inv o →
  ∃ now,
    now = match value_ o with
          | Live x => fst (move_assign x v)
          | Raw => fst (move_ctor v)
          end ∧
    operator_assign_value this v w =
      Ok (this, mk_world (<[this := present now]> (objects w))
                         (if has_value o then constructed w else S (constructed w))
                         (destroyed w)) ∧
    rbind (value (present now)) read = Ok now.
Proof.
  intros Hthis Hinv. apply optional_inv_cases in Hinv.
  destruct Hinv as [-> | [x ->]]; eexists; (split; [reflexivity |]); simpl.
  - by rewrite (assign_value_absent w this v Hthis).
  - by rewrite (assign_value_present w this x v Hthis).
Qed.

(** [reset()] twice is [reset()] once, on every store and whatever is at
    the address. *)
Theorem reset_idempotent (w : world T) (this : addr) :
  effect ((exec reset this in reset this) w) = effect (reset this w).
Proof.
  destruct (objects w !! this) as [[[] [|v]]|] eqn:Hthis; by evaluate.
Qed.

End OtherMembers.

(** *** Operations touch only the objects they name *)

Create HintDb frame.

Section Frame.
Context {T : Type} `{Contained T}.
Implicit Types (a b : addr) (x : option (optional T)).

Lemma frame_store a x b o : b ≠ a → preserves (holds_at a x) (store b o).
Proof.
  intros Hne w Hw. unfold store, holds_at in *. simpl.
  by rewrite lookup_insert_ne.
Qed.

Lemma frame_set_has_value a x b h :
  b ≠ a → preserves (holds_at a x) (set_has_value b h).
Proof.
  intros Hne. unfold set_has_value.
  apply preserves_bind; [apply preserves_load | intros o; by apply frame_store].
Qed.

Lemma frame_read_value a x b : preserves (holds_at a x) (read_value b).
Proof.
  unfold read_value. apply preserves_bind; [apply preserves_load |].
  intros o. destruct (value_ o); [apply preserves_fail | apply preserves_ret].
Qed.

Lemma frame_get_has_value a x b : preserves (holds_at a x) (get_has_value b).
Proof.
  unfold get_has_value.
  apply preserves_bind; [apply preserves_load | intros o; apply preserves_ret].
Qed.

Lemma frame_write_value a x b v :
  b ≠ a → preserves (holds_at a x) (write_value b v).
Proof.
  intros Hne. unfold write_value. apply preserves_bind; [apply preserves_load |].
  intros o. destruct (value_ o); [apply preserves_fail | by apply frame_store].
Qed.

Lemma frame_placement_new a x b v :
  b ≠ a → preserves (holds_at a x) (placement_new b v).
Proof.
  intros Hne. unfold placement_new. apply preserves_bind; [apply preserves_load |].
  intros o. destruct (value_ o); [| apply preserves_fail].
  intros w Hw. unfold holds_at in *. simpl. by rewrite lookup_insert_ne.
Qed.

Lemma frame_destroy_value a x b :
  b ≠ a → preserves (holds_at a x) (destroy_value b).
Proof.
  intros Hne. unfold destroy_value. apply preserves_bind; [apply preserves_load |].
  intros o. destruct (value_ o); [apply preserves_fail |].
  intros w Hw. unfold holds_at in *. simpl. by rewrite lookup_insert_ne.
Qed.

Lemma frame_emplace a x b o : b ≠ a → preserves (holds_at a x) (emplace b o).
Proof.
  intros Hne w Hw. unfold emplace.
  destruct (objects w !! b); [exact I | by apply frame_store].
Qed.

Lemma frame_release a x b : b ≠ a → preserves (holds_at a x) (release b).
Proof.
  intros Hne. unfold release. apply preserves_bind; [apply preserves_load |].
  intros o. destruct (value_ o); [| apply preserves_fail].
  intros w Hw. unfold holds_at in *. simpl. by rewrite lookup_delete_ne.
Qed.

End Frame.

#[export] Hint Resolve preserves_ret preserves_fail preserves_bind preserves_if
  preserves_if_dec preserves_load frame_store frame_set_has_value
  frame_read_value frame_get_has_value frame_write_value frame_placement_new
  frame_destroy_value frame_emplace frame_release : frame.

Section FrameOfPrograms.
Context {T : Type} `{Contained T}.

Lemma run_op_frame (o : op T) (a : addr) (x : option (optional T)) :
  a ∉ op_names o → preserves (holds_at a x) (run_op o).
Proof.
  intros Hnot.
  destruct o; simpl in *; unfold_bodies;
    repeat match goal with
           | Hn : _ ∉ _ :: _ |- _ => apply not_elem_of_cons in Hn; destruct Hn
           end;
    auto 30 with frame.
Qed.

(** A program of the public operations that runs to its end leaves every
    address that none of its operations names exactly as it was: the same
    optional in the same state, or still no object. *)
Theorem untouched_objects_unchanged (p : list (op T)) (w w' : world T) (a : addr) :
  Forall (fun o => a ∉ op_names o) p →
  run p w = Ok (tt, w') →
  objects w' !! a = objects w !! a.
Proof.
  intros Hnot. revert w. induction Hnot as [|o p Ho Hp IH]; intros w Hrun.
  - by injection Hrun as <-.
  - simpl in Hrun. unfold bind in Hrun.
    pose proof (run_op_frame o a (objects w !! a) Ho w eq_refl) as Hstep.
    destruct (run_op o w) as [[[] w1]|f]; [| discriminate Hrun].
    rewrite (IH w1 Hrun). exact Hstep.
Qed.

End FrameOfPrograms.

(** *** Value-like contained types *)

Lemma slot_value_like : ValueLike optional_tests.slot.
Proof.
  split; try by intros [?].
  - by intros [?] [?].
  - by intros [?] [?].
  - by intros [?] [?].
Qed.

(** Equality of two stores that differ from a common one at [a] and [b]
    at most. *)
Ltac by_lookup a b :=
  let k := fresh "k" in
  apply map_eq; intros k;
  destruct (decide (k = b)) as [->|]; [by simplify_map_eq |];
  destruct (decide (k = a)) as [->|]; by simplify_map_eq.

Section ValueLikeFacts.
Context {T : Type} `{ValueLike T}.

Lemma swap_value_like (w : world T) (this other : addr) (l r : optional T) :
  this ≠ other →
  objects w !! this = Some l →
  objects w !! other = Some r →
  optional_inv l →
  optional_inv r →
  ∃ w',
    swap this other w = Ok (tt, w') ∧
    objects w' = <[other := l]> (<[this := r]> (objects w)) ∧
    swap other this w = Ok (tt, w').
Proof using Type*.
  intros Hne Hthis Hother Hl Hr. apply optional_inv_cases in Hl, Hr.
  destruct Hl as [-> | [x ->]], Hr as [-> | [y ->]]; eexists.
  - rewrite swap_neither, swap_neither by done.
    split; [reflexivity |]. split; [by_lookup this other | reflexivity].
  - rewrite (swap_into_this w this other y), (swap_into_other w other this y) by done.
    rewrite move_ctor_value.
    split; [reflexivity |]. split; [simpl; by_lookup this other |].
    first [reflexivity | do 3 f_equal; by_lookup this other].
  - rewrite (swap_into_other w this other x), (swap_into_this w other this x) by done.
    rewrite move_ctor_value.
    split; [reflexivity |]. split; [simpl; by_lookup this other |].
    first [reflexivity | do 3 f_equal; by_lookup this other].
  - rewrite (swap_both w this other x y), (swap_both w other this y x) by done.
    rewrite !adl_swap_value.
    split; [reflexivity |]. split; [simpl; by_lookup this other |].
    first [reflexivity | do 3 f_equal; by_lookup this other].
Qed.

(** For a value-like [T], [swap] between two distinct optionals that
    satisfy the class invariant exchanges their states, whichever of them
    are present, and [swap] in the other direction does the same to the
    whole store. *)
Theorem swap_exchanges (w : world T) (this other : addr) (l r : optional T) :
  this ≠ other →
  objects w !! this = Some l →
  objects w !! other = Some r →
  optional_inv l →
  optional_inv r →
  ∃ w',
    swap this other w = Ok (tt, w') ∧
    objects w' = <[other := l]> (<[this := r]> (objects w)) ∧
    swap other this w = Ok (tt, w').
Proof using Type*. apply swap_value_like. Qed.

(** For a value-like [T], swapping two distinct optionals that satisfy the
    class invariant twice gives the store its objects back. *)
Theorem swap_twice (w : world T) (this other : addr) (l r : optional T) :
  this ≠ other →
  objects w !! this = Some l →
  objects w !! other = Some r →
  optional_inv l →
  optional_inv r →
  ∃ w',
    (exec swap this other in swap this other) w = Ok (tt, w') ∧
    objects w' = objects w.
Proof using Type*.
  intros Hne Hthis Hother Hl Hr.
  destruct (swap_value_like w this other l r) as (w1 & Hrun1 & Hobj1 & _); try done.
  destruct (swap_value_like w1 this other r l) as (w2 & Hrun2 & Hobj2 & _); try done.
  { rewrite Hobj1. by simplify_map_eq. }
  { rewrite Hobj1. by simplify_map_eq. }
  exists w2. split.
  - unfold bind. by rewrite Hrun1.
  - rewrite Hobj2, Hobj1. by_lookup this other.
Qed.

(** For a value-like [T] and two distinct optionals that satisfy the class
    invariant, move assignment leaves the store exactly as copy assignment
    followed by [reset()] of the source does, the count of constructions
    and destructions included. *)
Theorem move_assign_is_copy_then_reset
    (w : world T) (this other : addr) (dst src : optional T) :
  this ≠ other →
  objects w !! this = Some dst →
  objects w !! other = Some src →
  optional_inv dst →
  optional_inv src →
  is_ok (operator_assign_move this other w) ∧
  effect (operator_assign_move this other w) =
    effect ((exec operator_assign_copy this other in reset other) w).
Proof using Type*.
  intros Hne Hthis Hother Hdst Hsrc. apply optional_inv_cases in Hdst, Hsrc.
  unfold bind at 1.
  destruct Hdst as [-> | [x ->]], Hsrc as [-> | [y ->]].
  - rewrite assign_move_neither, assign_copy_neither by done.
    by rewrite (reset_absent w other).
  - rewrite (assign_move_into_absent w this other y),
      (assign_copy_into_absent w this other y) by done.
    erewrite reset_present by (simpl; by simplify_map_eq).
    rewrite move_ctor_value, copy_ctor_value. by split.
  - rewrite (assign_move_from_absent w this other x),
      (assign_copy_from_absent w this other x) by done.
    erewrite reset_absent by (simpl; by simplify_map_eq). by split.
  - rewrite (assign_move_both w this other x y),
      (assign_copy_both w this other x y) by done.
    erewrite reset_present by (simpl; by simplify_map_eq).
    rewrite move_assign_value, copy_assign_value. by split.
Qed.

(** For a value-like [T], move construction at a free address from a source
    that satisfies the class invariant leaves the store exactly as copy
    construction followed by [reset()] of the source does. *)
Theorem move_construct_is_copy_then_reset
    (w : world T) (this other : addr) (src : optional T) :
  objects w !! this = None →
  objects w !! other = Some src →
  optional_inv src →
  is_ok (optional_move this other w) ∧
  effect (optional_move this other w) =
    effect ((exec optional_copy this other in reset other) w).
Proof using Type*.
  intros Hthis Hother Hsrc. assert (this ≠ other) by congruence.
  apply optional_inv_cases in Hsrc. unfold bind at 1.
  destruct Hsrc as [-> | [y ->]].
  - rewrite optional_move_absent, optional_copy_absent by done.
    erewrite reset_absent by (simpl; by simplify_map_eq). by split.
  - rewrite (optional_move_present w this other y),
      (optional_copy_present w this other y) by done.
    erewrite reset_present by (simpl; by simplify_map_eq).
    rewrite move_ctor_value, copy_ctor_value. by split.
Qed.

End ValueLikeFacts.

(** *** The comparison operators as a relation *)

Section EqualityLaws.
Context {T U : Type} `{Comparable T U}.

(** On optionals that satisfy the class invariant, comparing an optional
    with a raw value, on either side, is comparing it with the optional
    that holds that value, and comparing it with [nullopt] is comparing it
    with an empty optional; likewise for [!=]. *)
Theorem comparisons_agree_with_wrapping
    (a : optional T) (b : optional U) (t : T) (u : U) :
  optional_inv a →
  optional_inv b →
  operator_eq_opt_val a u = operator_eq_opt_opt a (present u) ∧
  operator_ne_opt_val a u = operator_ne_opt_opt a (present u) ∧
  operator_eq_val_opt t b = operator_eq_opt_opt (present t) b ∧
  operator_ne_val_opt t b = operator_ne_opt_opt (present t) b ∧
  operator_eq_opt_nullopt a nullopt = operator_eq_opt_opt a (@absent U) ∧
  operator_ne_opt_nullopt a nullopt = operator_ne_opt_opt a (@absent U) ∧
  operator_eq_nullopt_opt nullopt b = operator_eq_opt_opt (@absent T) b ∧
  operator_ne_nullopt_opt nullopt b = operator_ne_opt_opt (@absent T) b.
Proof.
  intros Ha Hb. apply optional_inv_cases in Ha, Hb.
  destruct Ha as [-> | [x ->]], Hb as [-> | [y ->]]; repeat split.
Qed.

End EqualityLaws.

Section EqualityRelation.
Context {T : Type} `{Comparable T T}.

(** On optionals over one contained type that satisfy the class invariant,
    [==] between optionals is reflexive, symmetric and transitive whenever
    the [==] of the contained type is. *)
Theorem equality_is_equivalence (a b c : optional T) :
  optional_inv a →
  optional_inv b →
  optional_inv c →
  ((∀ x : T, op_eq x x = true) → operator_eq_opt_opt a a = Ok true) ∧
  ((∀ x y : T, op_eq x y = op_eq y x) →
     operator_eq_opt_opt a b = operator_eq_opt_opt b a) ∧
  ((∀ x y z : T, op_eq x y = true → op_eq y z = true → op_eq x z = true) →
     operator_eq_opt_opt a b = Ok true →
     operator_eq_opt_opt b c = Ok true →
     operator_eq_opt_opt a c = Ok true).
Proof.
  intros Ha Hb Hc. apply optional_inv_cases in Ha, Hb, Hc.
  destruct Ha as [-> | [x ->]], Hb as [-> | [y ->]], Hc as [-> | [z ->]].
  all: unfold operator_eq_opt_opt, operator_star_const, has_value; simpl.
  all: split; [intros Hrefl; by rewrite ?Hrefl |].
  all: split; [intros Hsym; by rewrite ?(Hsym x y) |].
  all: intros Htrans Hab Hbc; try done.
  f_equal. eapply Htrans; [by injection Hab | by injection Hbc].
Qed.

End EqualityRelation.

Section CopiesCompareEqual.
Context {T : Type} `{ValueLike T} `{!Comparable T T}.

(** For a value-like [T] with a reflexive [==]: after a copy assignment
    between optionals that satisfy the class invariant, and after a copy
    construction from one, the target and the source compare equal. *)
Theorem copies_compare_equal (w : world T) (this other : addr) (src : optional T) :
  (∀ x : T, op_eq x x = true) →
  objects w !! other = Some src →
  optional_inv src →
  (∀ dst, objects w !! this = Some dst → optional_inv dst →
     ∃ w' now,
       operator_assign_copy this other w = Ok (this, w') ∧
       objects w' !! this = Some now ∧
       objects w' !! other = Some src ∧
       operator_eq_opt_opt now src = Ok true) ∧
  (objects w !! this = None →
     ∃ w' now,
       optional_copy this other w = Ok (tt, w') ∧
       objects w' !! this = Some now ∧
       objects w' !! other = Some src ∧
       operator_eq_opt_opt now src = Ok true).
Proof using Type*.
  intros Hrefl Hother Hsrc. apply optional_inv_cases in Hsrc. split.
  - intros dst Hthis Hdst. apply optional_inv_cases in Hdst.
    destruct (decide (this = other)) as [->|Hne].
    { rewrite assign_copy_self. exists w, src. repeat split; try done.
      destruct Hsrc as [-> | [y ->]]; [done |].
      unfold operator_eq_opt_opt, operator_star_const, has_value. simpl.
      by rewrite Hrefl. }
    destruct Hdst as [-> | [x ->]], Hsrc as [-> | [y ->]].
    + rewrite assign_copy_neither by done. exists w, absent. by repeat split.
    + rewrite (assign_copy_into_absent w this other y) by done.
      rewrite copy_ctor_value. eexists _, (present y). simpl.
      repeat split; [by simplify_map_eq .. |].
      unfold operator_eq_opt_opt, operator_star_const, has_value. simpl.
      by rewrite Hrefl.
    + rewrite (assign_copy_from_absent w this other x) by done.
      eexists _, absent. simpl. repeat split; by simplify_map_eq.
    + rewrite (assign_copy_both w this other x y) by done.
      rewrite copy_assign_value. eexists _, (present y). simpl.
      repeat split; [by simplify_map_eq .. |].
      unfold operator_eq_opt_opt, operator_star_const, has_value. simpl.
      by rewrite Hrefl.
  - intros Hthis. assert (this ≠ other) by congruence.
    destruct Hsrc as [-> | [y ->]].
    + rewrite optional_copy_absent by done.
      eexists _, absent. simpl. repeat split; by simplify_map_eq.
    + rewrite (optional_copy_present w this other y) by done.
      rewrite copy_ctor_value. eexists _, (present y). simpl.
      repeat split; [by simplify_map_eq .. |].
      unfold operator_eq_opt_opt, operator_star_const, has_value. simpl.
      by rewrite Hrefl.
Qed.

End CopiesCompareEqual.

(** *** The invariant from any store *)

Section InvariantAnywhere.
Context {T : Type} `{Contained T}.

(** Started from any store in which every optional satisfies the class
    invariant and the constructions are the destructions plus the live
    values, a program of the public operations either stops at a caller's
    addressing error or ends in such a store again, from which every
    properly addressed operation completes. *)
Theorem invariant_from_any_store (p : list (op T)) (w : world T) :
  world_inv w →
  balanced w →
  match run p w with
  | Ok (_, w') =>
      world_inv w' ∧ balanced w' ∧
      (∀ o, op_ready w' o → ∃ w'', run_op o w' = Ok (tt, w''))
  | Fault f => caller_fault f
  end.
Proof.
  intros Hinv Hbal. pose proof (run_inv p w Hinv Hbal) as Hrun.
  destruct (run p w) as [[[] w']|f]; [| exact Hrun].
  destruct Hrun as [Hinv' Hbal']. repeat split; try assumption.
  intros o. by apply run_op_progress.
Qed.

End InvariantAnywhere.

(** *** The instrumented type meets what the theorems ask *)

(** The copies, moves and assignments of [slot] carry the value over and
    leave the source as it was, [std::swap] exchanges two slots, [==] is
    equality of the values, hence an equivalence, and [!=] is its
    negation. *)
Theorem slot_operations (a b : optional_tests.slot) :
  copy_ctor a = a ∧
  move_ctor a = (a, a) ∧
  copy_assign a b = b ∧
  move_assign a b = (b, b) ∧
  adl_swap a b = (b, a) ∧
  (op_eq a b = true ↔ a = b) ∧
  op_ne a b = negb (op_eq a b).
Proof.
  destruct a as [x], b as [y]. repeat split; simpl.
  - intros Heq. f_equal. by apply Z.eqb_eq.
  - intros [= ->]. apply Z.eqb_refl.
Qed.

(** *** The theorems above on the objects of the tests *)

Lemma abc_inv : world_inv scenario.abc.
Proof.
  intros k o Hat. unfold scenario.abc in Hat. simpl in Hat.
  repeat (rewrite lookup_insert in Hat; case_decide; simplify_eq); try done.
Qed.

Lemma abc_balanced : balanced scenario.abc.
Proof. vm_compute. reflexivity. Qed.

(** [fit::optional<slot> b(a);] in the test [construct_copy]. *)
Lemma copy_construction_witness :
  optional_copy scenario.d scenario.a scenario.abc =
    Ok (tt, mk_world (<[scenario.d := present (optional_tests.mk_slot 42)]>
                        (objects scenario.abc)) 3 0).
Proof.
  exact (proj1 (copy_construction scenario.abc scenario.d scenario.a
                  (present (optional_tests.mk_slot 42)) eq_refl eq_refl eq_refl)).
Defined.

Lemma construct_then_destroy_witness :
  effect ((exec optional_value scenario.d (optional_tests.mk_slot 42) in
           destroy scenario.d) scenario.abc) =
    Ok (mk_world (objects scenario.abc) 3 1).
Proof.
  exact (proj1 (proj2 (construct_then_destroy scenario.abc scenario.d
                         (optional_tests.mk_slot 42) eq_refl))).
Defined.

Lemma destruction_witness :
  destroy scenario.a scenario.abc =
    Ok (tt, mk_world (delete scenario.a (objects scenario.abc)) 2 1) ∧
  destroy scenario.c scenario.abc =
    Ok (tt, mk_world (delete scenario.c (objects scenario.abc)) 2 0).
Proof.
  split.
  - exact (proj1 (destruction scenario.abc scenario.a
                    (present (optional_tests.mk_slot 42)) eq_refl eq_refl)).
  - exact (proj1 (destruction scenario.abc scenario.c absent eq_refl eq_refl)).
Defined.

(** [a = {99};] in the test [assign]. *)
Lemma value_assignment_witness :
  operator_assign_value scenario.a (optional_tests.mk_slot 99) scenario.abc =
    Ok (scenario.a,
        mk_world (<[scenario.a := present (optional_tests.mk_slot 99)]>
                    (objects scenario.abc)) 2 0).
Proof.
  destruct (value_assignment scenario.abc scenario.a
              (present (optional_tests.mk_slot 42)) (optional_tests.mk_slot 99)
              eq_refl eq_refl) as (now & -> & Hrun & _).
  exact Hrun.
Defined.

Lemma untouched_objects_unchanged_witness :
  ∃ w',
    run [FreeSwap scenario.a scenario.b; Reset scenario.a] scenario.abc =
      Ok (tt, w') ∧
    objects w' !! scenario.c = Some absent.
Proof.
  eexists. split; [vm_compute; reflexivity |].
  rewrite (untouched_objects_unchanged
             [FreeSwap scenario.a scenario.b; Reset scenario.a]
             scenario.abc _ scenario.c).
  - reflexivity.
  - repeat constructor; simpl; rewrite !not_elem_of_cons;
      repeat split; try discriminate; apply not_elem_of_nil.
  - vm_compute. reflexivity.
Defined.

(** [swap(a, c)] in the test [swapping]: the value goes over to [c]. *)
Lemma swap_exchanges_witness :
  ∃ w',
    swap scenario.a scenario.c scenario.abc = Ok (tt, w') ∧
    objects w' !! scenario.a = Some absent ∧
    objects w' !! scenario.c = Some (present (optional_tests.mk_slot 42)).
Proof.
  destruct (@swap_exchanges _ _ slot_value_like scenario.abc scenario.a scenario.c
              (present (optional_tests.mk_slot 42)) absent)
    as (w' & Hrun & Hobj & _); [discriminate | reflexivity .. |].
  exists w'. split; [exact Hrun |]. rewrite Hobj. split; reflexivity.
Defined.

Lemma swap_twice_witness :
  ∃ w',
    (exec swap scenario.a scenario.b in swap scenario.a scenario.b) scenario.abc =
      Ok (tt, w') ∧
    objects w' = objects scenario.abc.
Proof.
  apply (@swap_twice _ _ slot_value_like scenario.abc scenario.a scenario.b
           (present (optional_tests.mk_slot 42))
           (present (optional_tests.mk_slot 55)));
    [discriminate | reflexivity ..].
Defined.

Lemma move_assign_is_copy_then_reset_witness :
  effect (operator_assign_move scenario.a scenario.b scenario.abc) =
    effect ((exec operator_assign_copy scenario.a scenario.b in reset scenario.b)
              scenario.abc).
Proof.
  apply (@move_assign_is_copy_then_reset _ _ slot_value_like scenario.abc
           scenario.a scenario.b
           (present (optional_tests.mk_slot 42))
           (present (optional_tests.mk_slot 55)));
    [discriminate | reflexivity ..].
Defined.

Lemma move_construct_is_copy_then_reset_witness :
  effect (optional_move scenario.d scenario.a scenario.abc) =
    effect ((exec optional_copy scenario.d scenario.a in reset scenario.a)
              scenario.abc).
Proof.
  apply (@move_construct_is_copy_then_reset _ _ slot_value_like scenario.abc
           scenario.d scenario.a (present (optional_tests.mk_slot 42)));
    reflexivity.
Defined.

(** [a == slot{42}] is [a == c] for [c({42})], as in the test
    [comparisons]. *)
Lemma comparisons_agree_with_wrapping_witness :
  operator_eq_opt_val (present (optional_tests.mk_slot 42))
                      (optional_tests.mk_slot 42) =
    operator_eq_opt_opt (present (optional_tests.mk_slot 42))
                        (present (optional_tests.mk_slot 42)).
Proof.
  exact (proj1 (comparisons_agree_with_wrapping
                  (present (optional_tests.mk_slot 42))
                  (present (optional_tests.mk_slot 42))
                  (optional_tests.mk_slot 42) (optional_tests.mk_slot 42)
                  eq_refl eq_refl)).
Defined.

Lemma equality_is_equivalence_witness :
  operator_eq_opt_opt (present (optional_tests.mk_slot 42))
                      (present (optional_tests.mk_slot 55)) =
    operator_eq_opt_opt (present (optional_tests.mk_slot 55))
                        (present (optional_tests.mk_slot 42)).
Proof.
  destruct (equality_is_equivalence
              (present (optional_tests.mk_slot 42))
              (present (optional_tests.mk_slot 55))
              (@absent optional_tests.slot) eq_refl eq_refl eq_refl)
    as (_ & Hsym & _).
  apply Hsym. intros [x] [y]. simpl. apply Z.eqb_sym.
Defined.

(** [a = b] in the test [assign_copy], then [a == b]. *)
Lemma copies_compare_equal_witness :
  ∃ w' now,
    operator_assign_copy scenario.a scenario.b scenario.abc = Ok (scenario.a, w') ∧
    objects w' !! scenario.a = Some now ∧
    objects w' !! scenario.b = Some (present (optional_tests.mk_slot 55)) ∧
    operator_eq_opt_opt now (present (optional_tests.mk_slot 55)) = Ok true.
Proof.
  destruct (@copies_compare_equal _ _ slot_value_like _ scenario.abc
              scenario.a scenario.b (present (optional_tests.mk_slot 55)))
    as [Hassign _]; [| reflexivity | reflexivity |].
  - intros [x]. simpl. apply Z.eqb_refl.
  - apply (Hassign (present (optional_tests.mk_slot 42))); reflexivity.
Defined.

Lemma invariant_from_any_store_witness :
  match run [AssignMove scenario.c scenario.a; Destroy scenario.a] scenario.abc with
  | Ok (_, w') => world_inv w' ∧ balanced w'
  | Fault _ => False
  end.
Proof.
  pose proof (invariant_from_any_store
                [AssignMove scenario.c scenario.a; Destroy scenario.a]
                scenario.abc abc_inv abc_balanced) as Hrun.
  destruct (run [AssignMove scenario.c scenario.a; Destroy scenario.a] scenario.abc)
    as [[[] w']|f] eqn:Erun.
  - destruct Hrun as (Hinv & Hbal & _). by split.
  - vm_compute in Erun. discriminate Erun.
Defined.
